(** * Verification of [src/types-global/errors.ts]

    The module defines the [BaseErrorCode] enumeration, the [McpError] class
    with its [toResponse] method, and the zod schema [ErrorSchema].

    The embedding is shallow.  JavaScript values live in a store of cells
    addressed by locations, so that sharing and cyclic [details] structures
    can be expressed; [JSON.stringify] and the zod parsers are written out
    as the algorithms the runtime and the library execute. *)

From Stdlib Require Import Ascii DecimalString Sorted.
From stdpp Require Import gmap strings list.

Open Scope string_scope.
Open Scope list_scope.
Set Warnings "-register-all".

(** ** Values and the store *)

Definition loc := positive.

(** A Number value.  [Finite z] is an integral number in the safe range
    (whose decimal rendering is [Number::toString]); fractional values are
    outside the model. *)
Inductive number :=
| Finite (z : Z)
| NaN
| Infinity (negative : bool).

(** The language values the module can be handed.  Objects and arrays are
    references into the store. *)
Inductive value :=
| VUndefined
| VNull
| VBool (b : bool)
| VNumber (n : number)
| VString (s : string)
| VBigInt (z : Z)
| VRef (l : loc).

#[global] Instance number_eq_dec : EqDecision number.
Proof. solve_decision. Defined.

#[global] Instance value_eq_dec : EqDecision value.
Proof. solve_decision. Defined.

(** *** [enum BaseErrorCode] (errors.ts, lines 8-31) *)

Inductive BaseErrorCode :=
| UNAUTHORIZED
| FORBIDDEN
| NOT_FOUND
| CONFLICT
| VALIDATION_ERROR
| RATE_LIMITED
| TIMEOUT
| SERVICE_UNAVAILABLE
| INTERNAL_ERROR
| UNKNOWN_ERROR
| CONFIGURATION_ERROR.

#[global] Instance BaseErrorCode_eq_dec : EqDecision BaseErrorCode.
Proof. solve_decision. Defined.

(** The run-time value of a member of a string enum is its string. *)
Definition code_value (c : BaseErrorCode) : string :=
  match c with
  | UNAUTHORIZED => "UNAUTHORIZED"
  | FORBIDDEN => "FORBIDDEN"
  | NOT_FOUND => "NOT_FOUND"
  | CONFLICT => "CONFLICT"
  | VALIDATION_ERROR => "VALIDATION_ERROR"
  | RATE_LIMITED => "RATE_LIMITED"
  | TIMEOUT => "TIMEOUT"
  | SERVICE_UNAVAILABLE => "SERVICE_UNAVAILABLE"
  | INTERNAL_ERROR => "INTERNAL_ERROR"
  | UNKNOWN_ERROR => "UNKNOWN_ERROR"
  | CONFIGURATION_ERROR => "CONFIGURATION_ERROR"
  end.

(** The members in declaration order. *)
Definition BaseErrorCode_members : list BaseErrorCode :=
  [UNAUTHORIZED; FORBIDDEN; NOT_FOUND; CONFLICT; VALIDATION_ERROR;
   RATE_LIMITED; TIMEOUT; SERVICE_UNAVAILABLE; INTERNAL_ERROR;
   UNKNOWN_ERROR; CONFIGURATION_ERROR].

(** *** Store cells *)

(** The fields of an [McpError] instance: [code] and [details] are the
    constructor's parameter properties, [message] is set by [super(message)]
    and [name] by the assignment in the constructor body. *)
Record McpError := mkMcpError {
  code : BaseErrorCode;
  message : string;
  details : value;
  name : string
}.

(** A cell is a plain object (own enumerable string-keyed data properties,
    in creation order), a dense array, or an [McpError] instance. *)
Inductive cell :=
| CObject (props : list (string * value))
| CArray (elems : list value)
| CError (e : McpError).

Abbreviation heap := (gmap loc cell).

(** ** Outcomes and the store monad *)

Inductive exn :=
| TypeError_cyclic      (* JSON.stringify met an object already on its stack *)
| TypeError_bigint.     (* JSON.stringify met a BigInt *)

(** [Ok] is a normal completion and [Throw] an abrupt one.  [Stuck] (a read
    of an unallocated location) and [OutOfFuel] are failures of the model,
    not of the program; they are shown not to occur on closed stores. *)
Inductive res (A : Type) :=
| Ok (a : A)
| Throw (e : exn)
| Stuck
| OutOfFuel.
Arguments Ok {A} a.
Arguments Throw {A} e.
Arguments Stuck {A}.
Arguments OutOfFuel {A}.

Definition res_bind {A B} (f : A → res B) (r : res A) : res B :=
  match r with
  | Ok a => f a
  | Throw e => Throw e
  | Stuck => Stuck
  | OutOfFuel => OutOfFuel
  end.

#[global] Instance res_ret : MRet res := @Ok.
#[global] Instance res_mbind : MBind res := @res_bind.

(** Computations over the store.  The store is kept on abrupt completion,
    so that what a call did before throwing stays observable. *)
Definition M (A : Type) : Type := heap → res A * heap.

Definition M_ret {A} (a : A) : M A := λ h, (Ok a, h).

Definition M_bind {A B} (f : A → M B) (m : M A) : M B :=
  λ h, match m h with
       | (Ok a, h') => f a h'
       | (Throw e, h') => (Throw e, h')
       | (Stuck, h') => (Stuck, h')
       | (OutOfFuel, h') => (OutOfFuel, h')
       end.

Notation "'let*' x := m 'in' k" := (M_bind (λ x, k) m)
  (at level 10, x name, m at level 100, k at level 200).

(** Allocation of a new object. *)
Definition alloc (c : cell) : M loc :=
  λ h, let l := fresh (dom h) in (Ok l, <[l := c]> h).

Definition read (l : loc) : M cell :=
  λ h, (match h !! l with Some c => Ok c | None => Stuck end, h).

(** A computation that only inspects the store. *)
Definition inspect {A} (f : heap → res A) : M A := λ h, (f h, h).

(** ** Language primitives used by the module *)

Definition LF : string := String (ascii_of_N 10) "".
Definition DQUOTE : string := String (ascii_of_N 34) "".

(** [ToBoolean], the test of the conditional operator. *)
Definition ToBoolean (v : value) : bool :=
  match v with
  | VUndefined | VNull => false
  | VBool b => b
  | VNumber (Finite z) => negb (z =? 0)%Z
  | VNumber NaN => false
  | VNumber (Infinity _) => true
  | VString s => negb (bool_decide (s = ""))
  | VBigInt z => negb (z =? 0)%Z
  | VRef _ => true
  end.

Definition is_finite (n : number) : bool :=
  match n with Finite _ => true | _ => false end.

Definition Number_toString (n : number) : string :=
  match n with
  | Finite z => NilZero.string_of_int (Z.to_int z)
  | NaN => "NaN"
  | Infinity false => "Infinity"
  | Infinity true => "-Infinity"
  end.

(** *** Property keys and their order *)

Definition digit_of (a : ascii) : option N :=
  let n := N_of_ascii a in
  if ((48 <=? n) && (n <=? 57))%N then Some (n - 48)%N else None.

Fixpoint digits_value (acc : N) (s : string) : option N :=
  match s with
  | EmptyString => Some acc
  | String a s' =>
      match digit_of a with
      | Some d => digits_value (acc * 10 + d)%N s'
      | None => None
      end
  end.

(** A key is an array index when it is the canonical decimal form of an
    integer in [0, 2^32 - 2]. *)
Definition array_index (k : string) : option N :=
  match k with
  | EmptyString => None
  | String a rest =>
      if bool_decide (a = "0"%char)
      then (if bool_decide (rest = "") then Some 0%N else None)
      else match digits_value 0 k with
           | Some n => if (n <=? 4294967294)%N then Some n else None
           | None => None
           end
  end.

Fixpoint insert_by_index (p : N * (string * value))
    (l : list (N * (string * value))) : list (N * (string * value)) :=
  match l with
  | [] => [p]
  | q :: l' => if (p.1 <=? q.1)%N then p :: l else q :: insert_by_index p l'
  end.

Definition indexed (p : string * value) : option (N * (string * value)) :=
  match array_index p.1 with Some n => Some (n, p) | None => None end.

(** [OrdinaryOwnPropertyKeys], with the values attached: array-index keys
    in ascending numeric order, then the other keys in creation order. *)
Definition own_props (props : list (string * value)) : list (string * value) :=
  (snd <$> foldr insert_by_index [] (omap indexed props))
  ++ filter (λ p, array_index p.1 = None) props.

(** The enumerable own properties of an [McpError] instance: the parameter
    properties in declaration order, then [name]; [message] is created
    non-enumerable by the [Error] constructor. *)
Definition error_props (e : McpError) : list (string * value) :=
  [("code", VString (code_value (code e)));
   ("details", details e);
   ("name", VString (name e))].

Definition index_key (i : nat) : string := NilZero.string_of_uint (Nat.to_uint i).

(** The enumerable own string-keyed properties of an object, in the order
    [for ... in] and [JSON.stringify] visit them. *)
Definition enumerable_props (c : cell) : list (string * value) :=
  match c with
  | CObject props => own_props props
  | CArray elems => imap (λ i v, (index_key i, v)) elems
  | CError e => error_props e
  end.

Fixpoint assoc (k : string) (props : list (string * value)) : option value :=
  match props with
  | [] => None
  | (k', v) :: ps => if bool_decide (k = k') then Some v else assoc k ps
  end.

(** All own properties, enumerable or not.  Inherited properties are not
    modelled; none of the keys this module looks up ([code], [message],
    [details]) is inherited from [Object.prototype]. *)
Definition all_props (c : cell) : list (string * value) :=
  match c with
  | CObject props => props
  | CArray elems =>
      imap (λ i v, (index_key i, v)) elems
      ++ [("length", VNumber (Finite (Z.of_nat (length elems))))]
  | CError e =>
      [("message", VString (message e));
       ("code", VString (code_value (code e)));
       ("details", details e);
       ("name", VString (name e))]
  end.

(** [o[k]] *)
Definition get_prop (c : cell) (k : string) : value :=
  default VUndefined (assoc k (all_props c)).

(** [k in o] *)
Definition has_prop (c : cell) (k : string) : bool :=
  bool_decide (is_Some (assoc k (all_props c))).

(** [o[k] = v] on an ordinary object. *)
Fixpoint set_prop (props : list (string * value)) (k : string) (v : value)
    : list (string * value) :=
  match props with
  | [] => [(k, v)]
  | (k', v') :: ps =>
      if bool_decide (k = k') then (k', v) :: ps else (k', v') :: set_prop ps k v
  end.

(** *** [QuoteJSONString] *)

Definition hex_digit (n : N) : ascii :=
  ascii_of_N (if (n <? 10)%N then 48 + n else 87 + n)%N.

Definition UnicodeEscape (a : ascii) : string :=
  let n := N_of_ascii a in
  "\u00" +:+ String (hex_digit (n / 16)%N) (String (hex_digit (n mod 16)%N) "").

(** Strings are sequences of bytes (UTF-8); every byte above the control
    range stands for itself. *)
Definition quote_char (a : ascii) : string :=
  let n := N_of_ascii a in
  if (n =? 8)%N then "\b"
  else if (n =? 9)%N then "\t"
  else if (n =? 10)%N then "\n"
  else if (n =? 12)%N then "\f"
  else if (n =? 13)%N then "\r"
  else if (n =? 34)%N then "\" +:+ DQUOTE
  else if (n =? 92)%N then "\\"
  else if (n <? 32)%N then UnicodeEscape a
  else String a "".

Fixpoint quote_chars (s : string) : string :=
  match s with
  | EmptyString => ""
  | String a s' => quote_char a +:+ quote_chars s'
  end.

Definition QuoteJSONString (s : string) : string :=
  DQUOTE +:+ quote_chars s +:+ DQUOTE.

(** ** [JSON.stringify(value, null, space)] *)

Fixpoint spaces (n : nat) : string :=
  match n with
  | O => ""
  | S n' => " " +:+ spaces n'
  end.

(** The gap derived from a numeric [space] argument. *)
Definition gap_of_space (space : nat) : string := spaces (space `min` 10).

Section serialize.
Variable h : heap.
Variable gap : string.

(** One member of an object: [QuoteJSONString(P) : strP]. *)
Definition member (k s : string) : string :=
  QuoteJSONString k +:+ ":" +:+ (if bool_decide (gap = "") then "" else " ") +:+ s.

(** The loop of [SerializeJSONObject] over the keys; a property whose
    value serializes to undefined is left out. *)
Fixpoint ser_members (rec : value → res (option string))
    (props : list (string * value)) : res (list string) :=
  match props with
  | [] => Ok []
  | (k, v) :: ps =>
      o ← rec v;
      rest ← ser_members rec ps;
      Ok (match o with Some s => member k s :: rest | None => rest end)
  end.

(** The loop of [SerializeJSONArray]; undefined becomes [null]. *)
Fixpoint ser_elements (rec : value → res (option string))
    (elems : list value) : res (list string) :=
  match elems with
  | [] => Ok []
  | v :: vs =>
      o ← rec v;
      rest ← ser_elements rec vs;
      Ok (default "null" o :: rest)
  end.

(** Assembly of the parts between the brackets [open] and [close]. *)
Definition wrap (open close : string) (stepback indent : string)
    (partial : list string) : string :=
  match partial with
  | [] => open +:+ close
  | _ =>
      if bool_decide (gap = "")
      then open +:+ String.concat "," partial +:+ close
      else open +:+ LF +:+ indent
           +:+ String.concat ("," +:+ LF +:+ indent) partial
           +:+ LF +:+ stepback +:+ close
  end.

(** [SerializeJSONProperty], applied to the value already read from its
    holder.  [stack] is the list of objects being serialized and [indent]
    the current indentation.  There is no replacer, and no value of the
    model has a [toJSON] method. *)
Fixpoint SerializeJSONProperty (fuel : nat) (stack : list loc)
    (indent : string) (v : value) : res (option string) :=
  match v with
  | VUndefined => Ok None
  | VNull => Ok (Some "null")
  | VBool true => Ok (Some "true")
  | VBool false => Ok (Some "false")
  | VString s => Ok (Some (QuoteJSONString s))
  | VNumber n => Ok (Some (if is_finite n then Number_toString n else "null"))
  | VBigInt _ => Throw TypeError_bigint
  | VRef l =>
      match fuel with
      | O => OutOfFuel
      | S fuel' =>
          match h !! l with
          | None => Stuck
          | Some c =>
              if bool_decide (l ∈@{list loc} stack) then Throw TypeError_cyclic
              else
                let stack' := (stack ++ [l]) in
                let stepback := indent in
                let indent' := indent +:+ gap in
                let rec := SerializeJSONProperty fuel' stack' indent' in
                match c with
                | CArray elems =>
                    partial ← ser_elements rec elems;
                    Ok (Some (wrap "[" "]" stepback indent' partial))
                | _ =>
                    partial ← ser_members rec (enumerable_props c);
                    Ok (Some (wrap "{" "}" stepback indent' partial))
                end
          end
      end
  end.
End serialize.

(** [JSON.stringify(v, null, space)].  The serialization stack never holds
    an object twice, so its depth is bounded by the number of cells. *)
Definition JSON_stringify (v : value) (space : nat) : M (option string) :=
  inspect (λ h, SerializeJSONProperty h (gap_of_space space) (S (size h)) [] "" v).

(** ** [class McpError] (errors.ts, lines 38-79) *)

(** [new McpError(code, message, details)] *)
Definition new_McpError (c : BaseErrorCode) (msg : string) (d : value) : M loc :=
  alloc (CError {| code := c; message := msg; details := d; name := "McpError" |}).

(** The string a template literal substitutes for a value that is a string
    or undefined. *)
Definition template_subst (o : option string) : string := default "undefined" o.

(** The template literal of [toResponse] (lines 64-66), evaluated on the
    fields of the instance. *)
Definition errorText (e : McpError) : M string :=
  let* suffix :=
    (if ToBoolean (details e)
     then let* s := JSON_stringify (details e) 2 in
          M_ret (LF +:+ "Details: " +:+ template_subst s)
     else M_ret "") in
  M_ret ("Error [" +:+ code_value (code e) +:+ "]: " +:+ message e +:+ suffix).

(** The object literals of lines 68-77. *)
Definition content_cell (text : string) : cell :=
  CObject [("type", VString "text"); ("text", VString text)].

Definition response_cell (arr : loc) : cell :=
  CObject [("content", VRef arr); ("isError", VBool true)].

(** [McpError.prototype.toResponse], called on the object at [this]. *)
Definition toResponse (this : loc) : M loc :=
  let* c := read this in
  match c with
  | CError e =>
      let* text := errorText e in
      let* content := alloc (content_cell text) in
      let* arr := alloc (CArray [VRef content]) in
      alloc (response_cell arr)
  | _ => λ h, (Stuck, h)
  end.

(** ** [ErrorSchema] (errors.ts, lines 85-94)

    The schema is built from zod's [z.object], [z.nativeEnum], [z.string],
    [z.record], [z.unknown] and [.optional()]; [.describe()] only attaches
    documentation.  Each schema is embedded as its [_parse] method (zod 3),
    the issues it adds to the context being returned next to its result. *)

(** zod's classification of a value ([getParsedType]); the kinds that no
    value of the model has (function, symbol, promise, map, set, date) are
    left out. *)
Inductive ZodParsedType :=
| zpt_string
| zpt_nan
| zpt_number
| zpt_boolean
| zpt_bigint
| zpt_undefined
| zpt_null
| zpt_array
| zpt_object.

#[global] Instance ZodParsedType_eq_dec : EqDecision ZodParsedType.
Proof. solve_decision. Defined.

Definition getParsedType (h : heap) (v : value) : res ZodParsedType :=
  match v with
  | VUndefined => Ok zpt_undefined
  | VNull => Ok zpt_null
  | VBool _ => Ok zpt_boolean
  | VNumber NaN => Ok zpt_nan
  | VNumber _ => Ok zpt_number
  | VString _ => Ok zpt_string
  | VBigInt _ => Ok zpt_bigint
  | VRef l =>
      match h !! l with
      | Some (CArray _) => Ok zpt_array
      | Some _ => Ok zpt_object
      | None => Stuck
      end
  end.

(** The issues these schemas can raise, each with the path of the offending
    field. *)
Inductive ZodIssue :=
| invalid_type (path : list string) (expected : string) (received : ZodParsedType)
| invalid_enum_value (path : list string) (received : value) (options : list string).

Definition issue_path (i : ZodIssue) : list string :=
  match i with
  | invalid_type p _ _ => p
  | invalid_enum_value p _ _ => p
  end.

(** The result of [_parse]: a valid value, or [INVALID] (status aborted). *)
Inductive ParseReturn :=
| OK (v : value)
| INVALID.

Definition parser := list string → value → M (list ZodIssue * ParseReturn).

(** [z.string()] *)
Definition ZodString_parse : parser := λ path data,
  let* t := inspect (λ h, getParsedType h data) in
  if bool_decide (t = zpt_string) then M_ret ([], OK data)
  else M_ret ([invalid_type path "string" t], INVALID).

(** [z.unknown()] *)
Definition ZodUnknown_parse : parser := λ path data, M_ret ([], OK data).

(** [util.getValidEnumValues(BaseErrorCode)]: for a string enum, the values
    of its members. *)
Definition nativeEnumValues : list string := code_value <$> BaseErrorCode_members.

(** [util.joinValues] *)
Definition joinValues (vals : list string) : string :=
  String.concat " | " ((λ s, "'" +:+ s +:+ "'") <$> vals).

(** [nativeEnumValues.indexOf(data) === -1] on a string or a number: strict
    equality never identifies a number with a string. *)
Definition enum_member (data : value) : bool :=
  match data with
  | VString s => bool_decide (s ∈ nativeEnumValues)
  | _ => false
  end.

(** [z.nativeEnum(BaseErrorCode)] *)
Definition ZodNativeEnum_parse : parser := λ path data,
  let* t := inspect (λ h, getParsedType h data) in
  if bool_decide (t ≠ zpt_string) && bool_decide (t ≠ zpt_number)
  then M_ret ([invalid_type path (joinValues nativeEnumValues) t], INVALID)
  else if negb (enum_member data)
  then M_ret ([invalid_enum_value path data nativeEnumValues], INVALID)
  else M_ret ([], OK data).

(** [inner.optional()] *)
Definition ZodOptional_parse (inner : parser) : parser := λ path data,
  let* t := inspect (λ h, getParsedType h data) in
  if bool_decide (t = zpt_undefined) then M_ret ([], OK VUndefined)
  else inner path data.

(** A parsed key/value pair as [ParseStatus.mergeObjectSync] receives it. *)
Record pair_result := mkPair {
  pair_key : string;
  pair_value : ParseReturn;
  alwaysSet : bool
}.

(** The loop of [ParseStatus.mergeObjectSync]: [None] when a pair is
    aborted, otherwise the properties of the final object. *)
Fixpoint merge_pairs (final : list (string * value)) (pairs : list pair_result)
    : option (list (string * value)) :=
  match pairs with
  | [] => Some final
  | p :: ps =>
      match pair_value p with
      | INVALID => None
      | OK v =>
          if negb (bool_decide (pair_key p = "__proto__"))
             && (negb (bool_decide (v = VUndefined)) || alwaysSet p)
          then merge_pairs (set_prop final (pair_key p) v) ps
          else merge_pairs final ps
      end
  end.

Definition mergeObjectSync (pairs : list pair_result) : M ParseReturn :=
  match merge_pairs [] pairs with
  | None => M_ret INVALID
  | Some final => let* l := alloc (CObject final) in M_ret (OK (VRef l))
  end.

(** Parsing of the listed keys of the object [c], in order; the issues are
    accumulated and every key is parsed, whatever the earlier ones gave. *)
Fixpoint parse_keys (c : cell) (path : list string)
    (fields : list (string * parser)) : M (list ZodIssue * list pair_result) :=
  match fields with
  | [] => M_ret ([], [])
  | (k, p) :: fs =>
      let* r := p (path ++ [k]) (get_prop c k) in
      let* rs := parse_keys c path fs in
      M_ret ((r.1 ++ rs.1), mkPair k r.2 (has_prop c k) :: rs.2)
  end.

(** [z.record(valueType)]: the keys are parsed by [z.string()], which
    accepts every property key. *)
Definition ZodRecord_parse (valueType : parser) : parser := λ path data,
  let* t := inspect (λ h, getParsedType h data) in
  if bool_decide (t ≠ zpt_object)
  then M_ret ([invalid_type path "object" t], INVALID)
  else
    match data with
    | VRef l =>
        let* c := read l in
        let* r := parse_keys c path ((λ kv, (kv.1, valueType)) <$> enumerable_props c) in
        let* o := mergeObjectSync r.2 in
        M_ret (r.1, o)
    | _ => λ h, (Stuck, h)
    end.

(** [z.object(shape)] with the default unknown-keys policy ("strip"). *)
Definition ZodObject_parse (shape : list (string * parser)) : parser := λ path data,
  let* t := inspect (λ h, getParsedType h data) in
  if bool_decide (t ≠ zpt_object)
  then M_ret ([invalid_type path "object" t], INVALID)
  else
    match data with
    | VRef l =>
        let* c := read l in
        let* r := parse_keys c path shape in
        let* o := mergeObjectSync r.2 in
        M_ret (r.1, o)
    | _ => λ h, (Stuck, h)
    end.

Definition ErrorSchema : parser :=
  ZodObject_parse
    [("code", ZodNativeEnum_parse);
     ("message", ZodString_parse);
     ("details", ZodOptional_parse (ZodRecord_parse ZodUnknown_parse))].

(** [schema.safeParse(data)] *)
Inductive SafeParseReturn :=
| SafeParseSuccess (data : value)
| SafeParseError (issues : list ZodIssue).

Definition safeParse (schema : parser) (data : value) : M SafeParseReturn :=
  let* r := schema [] data in
  match r.2 with
  | OK v => M_ret (SafeParseSuccess v)
  | INVALID => M_ret (SafeParseError r.1)
  end.

(** ** The structured text of the specification

    The specification describes the rendering of [details] as pretty-printed
    key/value text indented by two spaces per nesting level.  That
    description is a function on trees; [tree_of] unfolds a value of the
    store into the tree it denotes. *)

Inductive json :=
| JUndefined
| JNull
| JBool (b : bool)
| JNumber (n : number)
| JString (s : string)
| JArray (items : list json)
| JObject (members : list (string * json)).

(** The parts of an array or object at nesting depth [depth], one per line. *)
Definition block (open close : string) (depth : nat) (parts : list string) : string :=
  match parts with
  | [] => open +:+ close
  | _ =>
      open +:+ LF +:+ spaces (2 * S depth)
      +:+ String.concat ("," +:+ LF +:+ spaces (2 * S depth)) parts
      +:+ LF +:+ spaces (2 * depth) +:+ close
  end.

Definition pretty_member (k : string) (o : option string) : option string :=
  match o with
  | Some s => Some (QuoteJSONString k +:+ ": " +:+ s)
  | None => None
  end.

(** Pretty-printing with 2-space indentation; [None] is the absence of
    text (an undefined value). *)
Fixpoint pretty_print (depth : nat) (t : json) : option string :=
  match t with
  | JUndefined => None
  | JNull => Some "null"
  | JBool b => Some (if b then "true" else "false")
  | JNumber n => Some (if is_finite n then Number_toString n else "null")
  | JString s => Some (QuoteJSONString s)
  | JArray items =>
      Some (block "[" "]" depth
              ((λ t, default "null" (pretty_print (S depth) t)) <$> items))
  | JObject members =>
      Some (block "{" "}" depth
              (omap (λ kt, pretty_member kt.1 (pretty_print (S depth) kt.2)) members))
  end.


Definition tree_member (f : value → option json) (kv : string * value)
    : option (string * json) :=
  match f kv.2 with
  | Some t => Some (kv.1, t)
  | None => None
  end.

(** The tree a value denotes when its objects are at most [n] levels deep;
    the members of an object are listed in the order [view] gives.  A
    BigInt, an unallocated location and a structure deeper than [n] (so
    every cyclic one, for all [n]) denote no tree. *)
Fixpoint tree_of (view : cell → list (string * value)) (n : nat) (h : heap)
    (v : value) : option json :=
  match v with
  | VUndefined => Some JUndefined
  | VNull => Some JNull
  | VBool b => Some (JBool b)
  | VNumber x => Some (JNumber x)
  | VString s => Some (JString s)
  | VBigInt _ => None
  | VRef l =>
      match n with
      | O => None
      | S n' =>
          match h !! l with
          | None => None
          | Some (CArray elems) => JArray <$> mapM (tree_of view n' h) elems
          | Some c => JObject <$> mapM (tree_member (tree_of view n' h)) (view c)
          end
      end
  end.

(** A value is serializable when it denotes a tree: it reaches no BigInt
    and no cycle. *)
Definition serializable (h : heap) (v : value) : Prop :=
  ∃ n, is_Some (tree_of enumerable_props n h v).

(** ** Well-formed stores *)

Definition cell_values (c : cell) : list value :=
  match c with
  | CObject props => props.*2
  | CArray elems => elems
  | CError e => [details e]
  end.

Definition allocated (h : heap) (v : value) : Prop :=
  match v with
  | VRef l => is_Some (h !! l)
  | _ => True
  end.

(** No cell refers to an unallocated location. *)
Definition closed (h : heap) : Prop :=
  ∀ l c, h !! l = Some c → Forall (allocated h) (cell_values c).

(** The declared type of [details]: undefined, or a plain object. *)
Definition details_typed (h : heap) (d : value) : Prop :=
  d = VUndefined ∨ ∃ l props, d = VRef l ∧ h !! l = Some (CObject props).

(** ** Reading a response *)

Definition deref (h : heap) (v : value) : option cell :=
  match v with
  | VRef l => h !! l
  | _ => None
  end.

(** [response.content[0].text] *)
Definition response_text (h : heap) (r : loc) : option string :=
  resp ← h !! r;
  content ← deref h (get_prop resp "content");
  item ← deref h (get_prop content "0");
  match get_prop item "text" with
  | VString s => Some s
  | _ => None
  end.

(** The first line of the rendered text. *)
Definition header (e : McpError) : string :=
  "Error [" +:+ code_value (code e) +:+ "]: " +:+ message e.

(** The text after the header when [details] denotes the tree [t]. *)
Definition details_block (t : json) : string :=
  match pretty_print 0 t with
  | Some s => LF +:+ "Details: " +:+ s
  | None => ""
  end.

(** The response as a tree: the unfolding of the object [toResponse]
    returns. *)
Definition error_response (text : string) : json :=
  JObject [("content", JArray [JObject [("type", JString "text");
                                         ("text", JString text)]]);
           ("isError", JBool true)].

(** [new McpError(code, message, details).toResponse()] *)
Definition construct_and_render (c : BaseErrorCode) (msg : string) (d : value)
    : M loc :=
  let* this := new_McpError c msg d in toResponse this.

(** [new McpError(code, message, details).toResponse().content[0].text] *)
Definition rendered_text (c : BaseErrorCode) (msg : string) (d : value)
    (h : heap) : option string :=
  match construct_and_render c msg d h with
  | (Ok r, h') => response_text h' r
  | _ => None
  end.


(** ** Stores of the examples *)

(** [{field: "name"}] *)
Definition store_field : heap :=
  {[ 1%positive := CObject [("field", VString "name")] ]}.

(** [{}] *)
Definition store_empty : heap := {[ 1%positive := CObject [] ]}.


(** [{n: 1n}] *)
Definition store_bigint : heap := {[ 1%positive := CObject [("n", VBigInt 1)] ]}.

(** [o = {}; o.self = o] *)
Definition store_cyclic : heap :=
  {[ 1%positive := CObject [("self", VRef 1%positive)] ]}.

(** [new McpError(VALIDATION_ERROR, "bad field", {field: "name"})] *)
Definition bad_field : McpError :=
  mkMcpError VALIDATION_ERROR "bad field" (VRef 1%positive) "McpError".

Definition store_bad_field : heap := <[ 2%positive := CError bad_field ]> store_field.

(** [new McpError(NOT_FOUND, "missing widget", {})] *)
Definition missing_widget : McpError :=
  mkMcpError NOT_FOUND "missing widget" (VRef 1%positive) "McpError".

Definition store_missing_widget : heap :=
  <[ 2%positive := CError missing_widget ]> store_empty.

(** ** Auxiliary definitions of the statements and proofs *)

(** A completion of the program, normal or abrupt, as opposed to a failure
    of the model. *)
Definition definite {A} (r : res A) : Prop :=
  match r with
  | Ok _ | Throw _ => True
  | Stuck | OutOfFuel => False
  end.

(** The text that follows the header, as a function of the store. *)
Definition details_text (h : heap) (d : value) : res string :=
  if ToBoolean d
  then s ← SerializeJSONProperty h (gap_of_space 2) (S (size h)) [] "" d;
       Ok (LF +:+ "Details: " +:+ template_subst s)
  else Ok "".

(** The store after the three allocations of [toResponse]. *)
Definition response_store (h : heap) (text : string) : loc * heap :=
  let l1 := fresh (dom h) in
  let h1 := <[l1 := content_cell text]> h in
  let l2 := fresh (dom h1) in
  let h2 := <[l2 := CArray [VRef l1]]> h1 in
  let l3 := fresh (dom h2) in
  (l3, <[l3 := response_cell l2]> h2).

(** What [z.nativeEnum(BaseErrorCode)] returns on a value of parsed type
    [t]. *)
Definition enum_verdict (path : list string) (data : value) (t : ZodParsedType)
    : list ZodIssue * ParseReturn :=
  if bool_decide (t ≠ zpt_string) && bool_decide (t ≠ zpt_number)
  then ([invalid_type path (joinValues nativeEnumValues) t], INVALID)
  else if negb (enum_member data)
  then ([invalid_enum_value path data nativeEnumValues], INVALID)
  else ([], OK data).

(** What [z.string()] returns on a value of parsed type [t]. *)
Definition string_verdict (path : list string) (data : value) (t : ZodParsedType)
    : list ZodIssue * ParseReturn :=
  if bool_decide (t = zpt_string) then ([], OK data)
  else ([invalid_type path "string" t], INVALID).

(** The pairs [z.record(z.unknown())] hands to [mergeObjectSync]. *)
Definition record_pairs (c : cell) : list pair_result :=
  (λ kv, mkPair kv.1 (OK (get_prop c kv.1)) (has_prop c kv.1)) <$> enumerable_props c.

(** The properties of the copy a record parser returns. *)
Definition record_copy (c : cell) : list (string * value) :=
  default [] (merge_pairs [] (record_pairs c)).

(** The run of [z.record(z.unknown()).optional()] on [d]. *)
Definition details_run (path : list string) (d : value) (h : heap)
    : res (list ZodIssue * ParseReturn) * heap :=
  match getParsedType h d with
  | Ok zpt_undefined => (Ok ([], OK VUndefined), h)
  | Ok zpt_object =>
      match deref h d with
      | Some c =>
          (Ok ([], OK (VRef (fresh (dom h)))),
           <[fresh (dom h) := CObject (record_copy c)]> h)
      | None => (Stuck, h)
      end
  | Ok t => (Ok ([invalid_type path "object" t], INVALID), h)
  | Throw x => (Throw x, h)
  | Stuck => (Stuck, h)
  | OutOfFuel => (OutOfFuel, h)
  end.

(** A mapping: an object that is not an array. *)
Definition is_mapping (c : cell) : Prop := ∀ elems, c ≠ CArray elems.

(** The shape of the specification: an object (not null, not a primitive,
    not an array) whose [code] is the string of a member of the registry,
    whose [message] is a string, and whose [details], when present, is a
    mapping. *)
Definition shape_valid (h : heap) (v : value) : Prop :=
  ∃ l c,
    v = VRef l ∧ h !! l = Some c ∧ is_mapping c
    ∧ (∃ cd, get_prop c "code" = VString (code_value cd))
    ∧ (∃ s, get_prop c "message" = VString s)
    ∧ (get_prop c "details" = VUndefined
       ∨ ∃ l' c', get_prop c "details" = VRef l' ∧ h !! l' = Some c' ∧ is_mapping c').

(** The properties of a successfully parsed object: the three declared
    keys, [details] being set only when the input has the key. *)
Definition stripped (c : cell) (d : value) : list (string * value) :=
  [("code", get_prop c "code"); ("message", get_prop c "message")]
  ++ (if has_prop c "details" then [("details", d)] else []).

(** The test of [mergeObjectSync] on a pair whose key is not [__proto__]. *)
Definition kept (v : value) (always : bool) : bool :=
  negb (bool_decide (v = VUndefined)) || always.

(** [ErrorSchema.safeParse(v)] succeeds. *)
Definition accepted (h : heap) (v : value) : Prop :=
  ∃ out h', safeParse ErrorSchema v h = (Ok (SafeParseSuccess out), h').

(** [{code: "TIMEOUT", message: "deadline exceeded"}] *)
Definition store_timeout : heap :=
  {[ 1%positive := CObject [("code", VString "TIMEOUT");
                            ("message", VString "deadline exceeded")] ]}.

(** The same object with [details: {retryAfterMs: 500}]. *)
Definition store_timeout_details : heap :=
  <[ 2%positive := CObject [("code", VString "TIMEOUT");
                            ("message", VString "deadline exceeded");
                            ("details", VRef 1%positive)] ]>
  {[ 1%positive := CObject [("retryAfterMs", VNumber (Finite 500))] ]}.

(** [{code: "NOPE", message: "m"}] *)
Definition store_nope : heap :=
  {[ 1%positive := CObject [("code", VString "NOPE"); ("message", VString "m")] ]}.

(** [{code: "TIMEOUT"}] *)
Definition store_no_message : heap :=
  {[ 1%positive := CObject [("code", VString "TIMEOUT")] ]}.

(** [{code: "TIMEOUT", traceId: "abc", message: "deadline exceeded"}] *)
Definition store_extra : heap :=
  {[ 1%positive := CObject [("code", VString "TIMEOUT"); ("traceId", VString "abc");
                            ("message", VString "deadline exceeded")] ]}.

(** The issues of a rejected object all lie on the three declared fields. *)
Definition field_paths : list (list string) := [["code"]; ["message"]; ["details"]].

(** [new McpError(VALIDATION_ERROR, "bad field", {n: 1n})] *)
Definition store_bigint_error : heap :=
  <[ 2%positive := CError bad_field ]> store_bigint.

(** [{field: "name"}] after [details.field = "title"]. *)
Definition props_title : list (string * value) := [("field", VString "title")].

(** [new McpError(NOT_FOUND, "inner message")] and [{cause: inner}]. *)
Definition store_cause : heap :=
  <[ 2%positive := CObject [("cause", VRef 1%positive)] ]>
  {[ 1%positive := CError (mkMcpError NOT_FOUND "inner message" VUndefined "McpError") ]}.

(** The order of two indexed properties. *)
Definition index_le (p q : N * (string * value)) : Prop := (p.1 ≤ q.1)%N.

(** A property is shown only when its value is not undefined. *)
Definition shown (kv : string * value) : Prop := kv.2 ≠ VUndefined.

(** [{a: undefined, b: 1}] and [{b: 1}] *)
Definition store_undefined : heap :=
  <[ 2%positive := CObject [("b", VNumber (Finite 1))] ]>
  {[ 1%positive := CObject [("a", VUndefined); ("b", VNumber (Finite 1))] ]}.


(** [[1]] *)
Definition store_array : heap := {[ 1%positive := CArray [VNumber (Finite 1)] ]}.

(** The tests the schema applies to the three fields. *)
Definition code_ok (c : cell) : bool := enum_member (get_prop c "code").

Definition message_ok (c : cell) : bool :=
  match get_prop c "message" with VString _ => true | _ => false end.

Definition details_ok (h : heap) (c : cell) : bool :=
  match get_prop c "details" with
  | VUndefined => true
  | VRef l =>
      match h !! l with
      | Some (CArray _) | None => false
      | Some _ => true
      end
  | _ => false
  end.

(** The path reported for a field, if its test fails. *)
Definition failed (ok : bool) (field : string) : list (list string) :=
  if ok then [] else [[field]].

(** [{code: 3, details: null}]: the three fields fail. *)
Definition store_three_failures : heap :=
  {[ 1%positive := CObject [("code", VNumber (Finite 3)); ("details", VNull)] ]}.

(** * Proofs *)

(** Reduction of the binds of [res]. *)
Ltac res_simpl := cbn [mbind res_mbind res_bind].
Ltac res_simpl_in H := cbn [mbind res_mbind res_bind] in H.
Ltac res_simpl_all := cbn [mbind res_mbind res_bind] in *.

(** ** Strings *)

Lemma append_assoc (a b c : string) : (a +:+ b) +:+ c = a +:+ (b +:+ c).
Proof.
  induction a as [|x a IH]; [done|].
  change (String x ((a +:+ b) +:+ c) = String x (a +:+ (b +:+ c))).
  by rewrite IH.
Qed.

Lemma spaces_add (a b : nat) : spaces a +:+ spaces b = spaces (a + b).
Proof.
  induction a as [|a IH]; [done|].
  change (String " " (spaces a +:+ spaces b) = String " " (spaces (a + b))).
  by rewrite IH.
Qed.

Lemma indent_step (depth : nat) :
  spaces (2 * depth) +:+ gap_of_space 2 = spaces (2 * S depth).
Proof.
  change (gap_of_space 2) with (spaces 2). rewrite spaces_add. f_equal. lia.
Qed.

Lemma wrap_block (open close : string) (depth : nat) (partial : list string) :
  wrap (gap_of_space 2) open close (spaces (2 * depth)) (spaces (2 * S depth)) partial
  = block open close depth partial.
Proof. by destruct partial. Qed.

(** ** Unfolding into trees *)

Section tree_of.
Variable view : cell → list (string * value).
Variable h : heap.

Lemma tree_of_ref (n : nat) (l : loc) :
  tree_of view (S n) h (VRef l)
  = match h !! l with
    | None => None
    | Some (CArray elems) => JArray <$> mapM (tree_of view n h) elems
    | Some c => JObject <$> mapM (tree_member (tree_of view n h)) (view c)
    end.
Proof. done. Qed.

Lemma tree_of_S (n : nat) (v : value) (t : json) :
  tree_of view n h v = Some t → tree_of view (S n) h v = Some t.
Proof.
  revert v t. induction n as [|n IH]; intros v t.
  - by destruct v.
  - destruct v as [| | | | | |l]; try done.
    rewrite !tree_of_ref. destruct (h !! l) as [c|]; [|done].
    assert (Hobj : ∀ (ps : list (string * value)) ts,
      mapM (tree_member (tree_of view n h)) ps = Some ts →
      mapM (tree_member (tree_of view (S n) h)) ps = Some ts).
    { intros ps ts Hm. apply mapM_Some. apply mapM_Some in Hm.
      eapply Forall2_impl; [exact Hm|]. intros [k v] kt. unfold tree_member; cbn [fst snd].
      destruct (tree_of view n h v) as [t'|] eqn:Ht; [|done].
      by rewrite (IH _ _ Ht). }
    assert (Harr : ∀ vs ts,
      mapM (tree_of view n h) vs = Some ts →
      mapM (tree_of view (S n) h) vs = Some ts).
    { intros vs ts Hm. apply mapM_Some. apply mapM_Some in Hm.
      eapply Forall2_impl; [exact Hm|]. intros; by apply IH. }
    destruct c as [props|elems|e]; intros Hm;
      apply fmap_Some in Hm as (ts & Hm & ->);
      first [rewrite (Hobj _ _ Hm) | rewrite (Harr _ _ Hm)]; done.
Qed.

Lemma tree_of_le (n m : nat) (v : value) (t : json) :
  (n ≤ m)%nat → tree_of view n h v = Some t → tree_of view m h v = Some t.
Proof. induction 1; [done | intros; by apply tree_of_S, IHle]. Qed.

Lemma tree_of_None_le (n m : nat) (v : value) :
  (n ≤ m)%nat → tree_of view m h v = None → tree_of view n h v = None.
Proof.
  intros Hle Hm. destruct (tree_of view n h v) as [t|] eqn:Hn; [|done].
  by rewrite (tree_of_le _ _ _ _ Hle Hn) in Hm.
Qed.
End tree_of.

(** ** The serialization stack

    The stack holds distinct allocated locations, so it is never longer
    than the store is large; this is what bounds the recursion of the
    serializer. *)

Lemma stack_bound (h : heap) (stack : list loc) :
  NoDup stack → (∀ s, s ∈ stack → is_Some (h !! s)) → (length stack ≤ size h)%nat.
Proof.
  intros Hnd Hin. rewrite <- (size_dom h).
  unfold size, set_size; simpl.
  apply submseteq_length, NoDup_submseteq; [done|].
  intros s Hs. apply elem_of_elements, elem_of_dom. by apply Hin.
Qed.

Lemma stack_push_NoDup (stack : list loc) (l : loc) :
  NoDup stack → l ∉ stack → NoDup (stack ++ [l]).
Proof.
  intros Hnd Hl. apply NoDup_app. split_and!; [done| |apply NoDup_singleton].
  by intros s Hs ->%list_elem_of_singleton.
Qed.

Lemma stack_push_allocated (h : heap) (stack : list loc) (l : loc) (c : cell) :
  (∀ s, s ∈ stack → is_Some (h !! s)) →
  h !! l = Some c →
  ∀ s, s ∈ stack ++ [l] → is_Some (h !! s).
Proof.
  intros Hin Hl s [Hs| ->%list_elem_of_singleton]%elem_of_app;
    [by apply Hin|by eexists].
Qed.

(** ** [JSON.stringify] prints the tree *)

Lemma SerializeJSONProperty_ref (h : heap) (gap : string) (fuel : nat)
    (stack : list loc) (indent : string) (l : loc) :
  SerializeJSONProperty h gap (S fuel) stack indent (VRef l)
  = match h !! l with
    | None => Stuck
    | Some c =>
        if bool_decide (l ∈ stack) then Throw TypeError_cyclic
        else
          let rec :=
            SerializeJSONProperty h gap fuel (stack ++ [l]) (indent +:+ gap) in
          match c with
          | CArray elems =>
              partial ← ser_elements rec elems;
              Ok (Some (wrap gap "[" "]" indent (indent +:+ gap) partial))
          | _ =>
              partial ← ser_members gap rec (enumerable_props c);
              Ok (Some (wrap gap "{" "}" indent (indent +:+ gap) partial))
          end
    end.
Proof. done. Qed.

Lemma ser_members_pretty (rec : value → res (option string)) (depth : nat)
    (f : value → option json) (props : list (string * value))
    (kts : list (string * json)) :
  (∀ kv t, kv ∈ props → f kv.2 = Some t → rec kv.2 = Ok (pretty_print depth t)) →
  mapM (tree_member f) props = Some kts →
  ser_members (gap_of_space 2) rec props
  = Ok (omap (λ kt, pretty_member kt.1 (pretty_print depth kt.2)) kts).
Proof.
  intros Hrec Hm. apply mapM_Some in Hm.
  induction Hm as [|[k v] [k' t] props kts Hkv Hm IH]; [done|].
  unfold tree_member in Hkv; cbn [fst snd] in Hkv.
  destruct (f v) as [t'|] eqn:Hf; [|done]. injection Hkv as <- ->.
  pose proof (Hrec (k, v) t (ltac:(by left)) Hf) as Hr; cbn [snd] in Hr.
  cbn [ser_members]. rewrite Hr.
  rewrite IH; [|intros kv t' Hin; apply Hrec; by right].
  cbn [mbind res_mbind res_bind omap list_omap fst snd].
  by destruct (pretty_print depth t).
Qed.

Lemma ser_elements_pretty (rec : value → res (option string)) (depth : nat)
    (f : value → option json) (elems : list value) (ts : list json) :
  (∀ v t, v ∈ elems → f v = Some t → rec v = Ok (pretty_print depth t)) →
  mapM f elems = Some ts →
  ser_elements rec elems
  = Ok ((λ t, default "null" (pretty_print depth t)) <$> ts).
Proof.
  intros Hrec Hm. apply mapM_Some in Hm.
  induction Hm as [|v t elems ts Hv Hm IH]; [done|].
  cbn [ser_elements]. rewrite (Hrec v t (ltac:(by left)) Hv).
  rewrite IH; [done|]. intros v' t' Hin; apply Hrec; by right.
Qed.

(** The serializer refines the pretty-printer: on a value that denotes the
    tree [t], with a stack of objects that are all deeper than [n] levels
    and enough fuel for the cells not yet on the stack, it returns the text
    of [t] at the current depth. *)
Lemma SerializeJSONProperty_pretty (h : heap) (n : nat) :
  ∀ (v : value) (t : json), tree_of enumerable_props n h v = Some t →
  ∀ (fuel : nat) (stack : list loc) (depth : nat),
    NoDup stack →
    (∀ s, s ∈ stack → is_Some (h !! s)) →
    (∀ s, s ∈ stack → tree_of enumerable_props n h (VRef s) = None) →
    (size h < length stack + fuel)%nat →
    SerializeJSONProperty h (gap_of_space 2) fuel stack (spaces (2 * depth)) v
    = Ok (pretty_print depth t).
Proof.
  induction n as [|n IH]; intros v t Ht fuel stack depth Hnd Hin Hnone Hsz.
  { destruct v as [| | [] | | | |l]; simplify_eq/=; by destruct fuel. }
  destruct v as [| | [] | | | |l]; try (simplify_eq/=; by destruct fuel).
  destruct (tree_of enumerable_props n h (VRef l)) as [t'|] eqn:Hprev.
  { assert (t' = t) as ->.
    { apply tree_of_S in Hprev. congruence. }
    apply IH; try done.
    intros s Hs. eapply tree_of_None_le; [|by apply Hnone]. lia. }
  destruct fuel as [|fuel].
  { pose proof (stack_bound h stack Hnd Hin). lia. }
  rewrite SerializeJSONProperty_ref.
  rewrite tree_of_ref in Ht.
  destruct (h !! l) as [c|] eqn:Hl; [|done].
  rewrite bool_decide_eq_false_2.
  2:{ intros Hs. apply Hnone in Hs. rewrite tree_of_ref, Hl in Hs. congruence. }
  assert (Hrec : ∀ v t, tree_of enumerable_props n h v = Some t →
    SerializeJSONProperty h (gap_of_space 2) fuel (stack ++ [l])
      (spaces (2 * depth) +:+ gap_of_space 2) v = Ok (pretty_print (S depth) t)).
  { intros v t0 Hv. rewrite indent_step. apply IH; try done.
    - apply stack_push_NoDup; [done|]. intros Hs.
      apply Hnone in Hs. rewrite tree_of_ref, Hl in Hs. congruence.
    - by eapply stack_push_allocated.
    - intros s [Hs| ->%list_elem_of_singleton]%elem_of_app; [|done].
      eapply tree_of_None_le; [|by apply Hnone]. lia.
    - rewrite length_app; simpl. lia. }
  cbv zeta.
  destruct c as [props|elems|e];
    apply fmap_Some in Ht as (ts & Hm & ->).
  - erewrite ser_members_pretty; [|intros; by apply Hrec|done].
    res_simpl. by rewrite indent_step, wrap_block.
  - erewrite ser_elements_pretty; [|intros; by apply Hrec|done].
    res_simpl. by rewrite indent_step, wrap_block.
  - erewrite ser_members_pretty; [|intros; by apply Hrec|done].
    res_simpl. by rewrite indent_step, wrap_block.
Qed.

(** ** Outcomes of the serializer *)

Lemma SerializeJSONProperty_prim (h : heap) (gap : string) (fuel : nat)
    (stack : list loc) (indent : string) (v : value) :
  (∀ l, v ≠ VRef l) →
  SerializeJSONProperty h gap fuel stack indent v
  = SerializeJSONProperty h gap 0 [] "" v.
Proof. intros Hv. destruct v; try by destruct fuel. by destruct (Hv l). Qed.

Lemma ser_members_ext (gap : string) (rec rec' : value → res (option string))
    (props : list (string * value)) :
  (∀ kv, kv ∈ props → definite (rec kv.2) → rec' kv.2 = rec kv.2) →
  definite (ser_members gap rec props) →
  ser_members gap rec' props = ser_members gap rec props.
Proof.
  induction props as [|[k v] props IH]; intros Hext Hdef; [done|].
  cbn [ser_members] in *.
  pose proof (Hext (k, v) ltac:(by left)) as Hv; cbn [snd] in Hv.
  destruct (rec v) as [o| | |] eqn:Hr; try done;
    rewrite Hv by done; [|done].
  res_simpl_all.
  rewrite IH; [done| |].
  - intros kv Hin. apply Hext. by right.
  - by destruct (ser_members gap rec props).
Qed.

Lemma ser_elements_ext (rec rec' : value → res (option string))
    (elems : list value) :
  (∀ v, v ∈ elems → definite (rec v) → rec' v = rec v) →
  definite (ser_elements rec elems) →
  ser_elements rec' elems = ser_elements rec elems.
Proof.
  induction elems as [|v elems IH]; intros Hext Hdef; [done|].
  cbn [ser_elements] in *.
  pose proof (Hext v ltac:(by left)) as Hv.
  destruct (rec v) as [o| | |] eqn:Hr; try done;
    rewrite Hv by done; [|done].
  res_simpl_all.
  rewrite IH; [done| |].
  - intros v' Hin. apply Hext. by right.
  - by destruct (ser_elements rec elems).
Qed.

(** A completed serialization does not depend on the fuel left over, nor
    on cells allocated later. *)
Lemma SerializeJSONProperty_stable (h h' : heap) (gap : string) (fuel : nat) :
  h ⊆ h' →
  ∀ (fuel' : nat) (stack : list loc) (indent : string) (v : value),
    (fuel ≤ fuel')%nat →
    definite (SerializeJSONProperty h gap fuel stack indent v) →
    SerializeJSONProperty h' gap fuel' stack indent v
    = SerializeJSONProperty h gap fuel stack indent v.
Proof.
  intros Hsub. induction fuel as [|fuel IH]; intros fuel' stack indent v Hle Hdef.
  { destruct v; try by destruct fuel'. }
  destruct v as [| | | | | |l]; try by destruct fuel'.
  destruct fuel' as [|fuel']; [lia|].
  rewrite SerializeJSONProperty_ref in Hdef |- *.
  rewrite SerializeJSONProperty_ref.
  destruct (h !! l) as [c|] eqn:Hl; [|done].
  rewrite (lookup_weaken _ _ _ _ Hl Hsub).
  case_bool_decide; [done|]. cbv zeta in *.
  set (rec := SerializeJSONProperty h gap fuel (stack ++ [l]) (indent +:+ gap)) in *.
  assert (Hrec : ∀ v, definite (rec v) →
    SerializeJSONProperty h' gap fuel' (stack ++ [l]) (indent +:+ gap) v = rec v).
  { intros v Hd. apply IH; [lia|done]. }
  destruct c as [props|elems|e].
  - rewrite (ser_members_ext gap rec); [done|by auto|].
    by destruct (ser_members _ _ _).
  - rewrite (ser_elements_ext rec); [done|by auto|].
    by destruct (ser_elements _ _).
  - rewrite (ser_members_ext gap rec); [done|by auto|].
    by destruct (ser_members _ _ _).
Qed.

(** ** A value that serializes denotes a tree *)

Lemma ser_members_Ok (gap : string) (rec : value → res (option string))
    (f : value → option json) (props : list (string * value)) (ss : list string) :
  (∀ kv o, kv ∈ props → rec kv.2 = Ok o → is_Some (f kv.2)) →
  ser_members gap rec props = Ok ss →
  is_Some (mapM (tree_member f) props).
Proof.
  intros Hrec Hs. apply mapM_is_Some. revert ss Hs.
  induction props as [|[k v] props IH]; intros ss Hs; [constructor|].
  cbn [ser_members] in Hs.
  destruct (rec v) as [o| | |] eqn:Hr; try done.
  res_simpl_in Hs.
  destruct (ser_members gap rec props) as [rest| | |] eqn:Hrest; try done.
  constructor.
  - destruct (Hrec (k, v) o ltac:(by left) Hr) as [t Ht]; cbn [snd] in Ht.
    unfold compose, tree_member; cbn [fst snd]. by rewrite Ht.
  - eapply IH; [|done]. intros kv o' Hin. apply Hrec. by right.
Qed.

Lemma ser_elements_Ok (rec : value → res (option string))
    (f : value → option json) (elems : list value) (ss : list string) :
  (∀ v o, v ∈ elems → rec v = Ok o → is_Some (f v)) →
  ser_elements rec elems = Ok ss →
  is_Some (mapM f elems).
Proof.
  intros Hrec Hs. apply mapM_is_Some. revert ss Hs.
  induction elems as [|v elems IH]; intros ss Hs; [constructor|].
  cbn [ser_elements] in Hs.
  destruct (rec v) as [o| | |] eqn:Hr; try done.
  res_simpl_in Hs.
  destruct (ser_elements rec elems) as [rest| | |] eqn:Hrest; try done.
  constructor.
  - by apply (Hrec v o ltac:(by left)).
  - eapply IH; [|done]. intros v' o' Hin. apply Hrec. by right.
Qed.

Lemma SerializeJSONProperty_Ok_tree (h : heap) (gap : string) (fuel : nat) :
  ∀ (stack : list loc) (indent : string) (v : value) (o : option string),
    SerializeJSONProperty h gap fuel stack indent v = Ok o →
    is_Some (tree_of enumerable_props fuel h v).
Proof.
  induction fuel as [|fuel IH]; intros stack indent v o Hs.
  { by destruct v. }
  destruct v as [| | | | | |l]; try done.
  rewrite SerializeJSONProperty_ref in Hs. rewrite tree_of_ref.
  destruct (h !! l) as [c|]; [|done].
  case_bool_decide; [done|]. cbv zeta in Hs.
  destruct c as [props|elems|e].
  - destruct (ser_members _ _ _) as [ss| | |] eqn:Hss; try done.
    eapply ser_members_Ok in Hss as [ts ->]; [done|].
    intros kv o' _ Hr. by eapply IH.
  - destruct (ser_elements _ _) as [ss| | |] eqn:Hss; try done.
    eapply ser_elements_Ok in Hss as [ts ->]; [done|].
    intros kv o' _ Hr. by eapply IH.
  - destruct (ser_members _ _ _) as [ss| | |] eqn:Hss; try done.
    eapply ser_members_Ok in Hss as [ts ->]; [done|].
    intros kv o' _ Hr. by eapply IH.
Qed.

(** ** Property order *)

Lemma insert_by_index_perm (p : N * (string * value)) (l : list (N * (string * value))) :
  insert_by_index p l ≡ₚ p :: l.
Proof.
  induction l as [|q l IH]; [done|].
  cbn [insert_by_index]. destruct (p.1 <=? q.1)%N; [done|].
  rewrite IH. apply Permutation_swap.
Qed.

Lemma sort_by_index_perm (l : list (N * (string * value))) :
  foldr insert_by_index [] l ≡ₚ l.
Proof.
  induction l as [|p l IH]; [done|].
  cbn [foldr]. by rewrite insert_by_index_perm, IH.
Qed.

(** [own_props] only reorders the properties. *)
Lemma own_props_perm (props : list (string * value)) : own_props props ≡ₚ props.
Proof.
  unfold own_props. rewrite sort_by_index_perm.
  induction props as [|[k v] props IH]; [done|].
  rewrite filter_cons. cbn [omap list_omap].
  change (indexed (k, v)) with
    (match array_index k with Some n => Some (n, (k, v)) | None => None end).
  cbn [fst]. destruct (array_index k) as [n|] eqn:Hk.
  - rewrite decide_False by done. cbn [fmap list_fmap snd app].
    apply Permutation_skip, IH.
  - rewrite decide_True by done.
    rewrite <- Permutation_middle. apply Permutation_skip, IH.
Qed.


Lemma enumerable_props_values (c : cell) (kv : string * value) :
  kv ∈ enumerable_props c → (∃ s, kv.2 = VString s) ∨ kv.2 ∈ cell_values c.
Proof.
  destruct c as [props|elems|e]; cbn [enumerable_props cell_values].
  - rewrite own_props_perm. intros Hin. right.
    apply list_elem_of_fmap. by exists kv.
  - intros (i & v & -> & Hi)%elem_of_lookup_imap. right.
    by eapply list_elem_of_lookup_2.
  - unfold error_props. rewrite !elem_of_cons, elem_of_nil.
    intros [->|[->|[->|[]]]]; cbn [snd]; eauto using list_elem_of_here.
Qed.

(** ** The serializer completes on closed stores *)

Lemma ser_members_definite (gap : string) (rec : value → res (option string))
    (props : list (string * value)) :
  (∀ kv, kv ∈ props → definite (rec kv.2)) →
  definite (ser_members gap rec props).
Proof.
  induction props as [|[k v] props IH]; intros Hd; [done|].
  cbn [ser_members].
  pose proof (Hd (k, v) ltac:(by left)) as Hv; cbn [snd] in Hv.
  destruct (rec v); try done. res_simpl.
  assert (definite (ser_members gap rec props)) as Hrest.
  { apply IH. intros kv Hin. apply Hd. by right. }
  by destruct (ser_members gap rec props).
Qed.

Lemma ser_elements_definite (rec : value → res (option string))
    (elems : list value) :
  (∀ v, v ∈ elems → definite (rec v)) →
  definite (ser_elements rec elems).
Proof.
  induction elems as [|v elems IH]; intros Hd; [done|].
  cbn [ser_elements].
  pose proof (Hd v ltac:(by left)) as Hv.
  destruct (rec v); try done. res_simpl.
  assert (definite (ser_elements rec elems)) as Hrest.
  { apply IH. intros v' Hin. apply Hd. by right. }
  by destruct (ser_elements rec elems).
Qed.

Lemma SerializeJSONProperty_definite (h : heap) (gap : string) :
  closed h →
  ∀ (fuel : nat) (stack : list loc) (indent : string) (v : value),
    allocated h v →
    NoDup stack →
    (∀ s, s ∈ stack → is_Some (h !! s)) →
    (size h < length stack + fuel)%nat →
    definite (SerializeJSONProperty h gap fuel stack indent v).
Proof.
  intros Hclosed. induction fuel as [|fuel IH]; intros stack indent v Hv Hnd Hin Hsz.
  { destruct v as [| | [] | | | |l]; try done.
    pose proof (stack_bound h stack Hnd Hin). lia. }
  destruct v as [| | [] | | | |l]; try done.
  rewrite SerializeJSONProperty_ref.
  destruct Hv as [c Hl]. rewrite Hl.
  case_bool_decide as Hstack; [done|]. cbv zeta.
  assert (Hrec : ∀ kv : string * value,
    (∃ s, kv.2 = VString s) ∨ kv.2 ∈ cell_values c →
    definite (SerializeJSONProperty h gap fuel (stack ++ [l]) (indent +:+ gap) kv.2)).
  { intros kv Hkv. apply IH.
    - destruct Hkv as [[s ->]|Hkv]; [done|].
      pose proof (Hclosed l c Hl) as Hall.
      rewrite Forall_forall in Hall. by apply Hall.
    - by apply stack_push_NoDup.
    - by eapply stack_push_allocated.
    - rewrite length_app; simpl. lia. }
  destruct c as [props|elems|e].
  - assert (definite (ser_members gap
      (SerializeJSONProperty h gap fuel (stack ++ [l]) (indent +:+ gap))
      (enumerable_props (CObject props)))) as Hd.
    { apply ser_members_definite. intros kv Hkv.
      by apply Hrec, enumerable_props_values. }
    by destruct (ser_members _ _ _).
  - assert (definite (ser_elements
      (SerializeJSONProperty h gap fuel (stack ++ [l]) (indent +:+ gap)) elems)) as Hd.
    { apply ser_elements_definite. intros v Hv.
      apply (Hrec ("", v)). by right. }
    by destruct (ser_elements _ _).
  - assert (definite (ser_members gap
      (SerializeJSONProperty h gap fuel (stack ++ [l]) (indent +:+ gap))
      (enumerable_props (CError e)))) as Hd.
    { apply ser_members_definite. intros kv Hkv.
      by apply Hrec, enumerable_props_values. }
    by destruct (ser_members _ _ _).
Qed.

(** So [JSON.stringify] on a closed store completes: the fuel it is given
    is never exhausted and no read fails. *)
Lemma JSON_stringify_definite (h : heap) (v : value) (space : nat) :
  closed h → allocated h v →
  definite (JSON_stringify v space h).1 ∧ (JSON_stringify v space h).2 = h.
Proof.
  intros Hclosed Hv. unfold JSON_stringify, inspect. cbn [fst snd]. split; [|done].
  apply SerializeJSONProperty_definite; try done.
  - apply NoDup_nil_2.
  - by intros s ?%elem_of_nil.
  - simpl. lia.
Qed.

(** ** Running [toResponse] *)

Lemma fresh_lookup (h : heap) : h !! fresh (dom h) = None.
Proof. apply not_elem_of_dom, is_fresh. Qed.

Lemma alloc_subseteq (h : heap) (c : cell) : h ⊆ <[fresh (dom h) := c]> h.
Proof. apply insert_subseteq, fresh_lookup. Qed.

Lemma errorText_run (e : McpError) (h : heap) :
  errorText e h = (s ← details_text h (details e); Ok (header e +:+ s), h).
Proof.
  unfold errorText, details_text, M_bind, JSON_stringify, inspect, M_ret, header.
  destruct (ToBoolean (details e)).
  - destruct (SerializeJSONProperty _ _ _ _ _ _); cbn; try done.
    by rewrite !append_assoc.
  - cbn. by rewrite !append_assoc.
Qed.

Lemma toResponse_run (this : loc) (h : heap) (e : McpError) :
  h !! this = Some (CError e) →
  toResponse this h
  = match details_text h (details e) with
    | Ok s => let rs := response_store h (header e +:+ s) in (Ok rs.1, rs.2)
    | Throw x => (Throw x, h)
    | Stuck => (Stuck, h)
    | OutOfFuel => (OutOfFuel, h)
    end.
Proof.
  intros Hthis. unfold toResponse, M_bind at 1, read. rewrite Hthis.
  unfold M_bind at 1. rewrite errorText_run.
  by destruct (details_text h (details e)).
Qed.

Lemma toResponse_not_error (this : loc) (h : heap) :
  (∀ e, h !! this ≠ Some (CError e)) → toResponse this h = (Stuck, h).
Proof.
  intros Hthis. unfold toResponse, M_bind at 1, read.
  destruct (h !! this) as [[]|] eqn:Hl; try done. by destruct (Hthis e).
Qed.

Lemma response_store_subseteq (h : heap) (text : string) :
  h ⊆ (response_store h text).2.
Proof.
  unfold response_store; cbn [snd].
  etrans; [apply alloc_subseteq|]. etrans; [apply alloc_subseteq|].
  apply alloc_subseteq.
Qed.

(** Facts about allocation, for [auto with store]. *)
Create HintDb store discriminated.
#[global] Hint Resolve fresh_lookup alloc_subseteq response_store_subseteq
  lookup_insert_eq : store.

Lemma response_store_lookup (h : heap) (text : string) :
  ∃ l1 l2,
    (response_store h text).2 !! (response_store h text).1 = Some (response_cell l2)
    ∧ (response_store h text).2 !! l2 = Some (CArray [VRef l1])
    ∧ (response_store h text).2 !! l1 = Some (content_cell text)
    ∧ h !! (response_store h text).1 = None.
Proof.
  unfold response_store; cbn [fst snd].
  set (l1 := fresh (dom h)). set (h1 := <[l1 := content_cell text]> h).
  set (l2 := fresh (dom h1)). set (h2 := <[l2 := CArray [VRef l1]]> h1).
  set (l3 := fresh (dom h2)).
  assert (H1 : h1 !! l1 = Some (content_cell text)) by apply lookup_insert_eq.
  assert (H2 : h2 !! l2 = Some (CArray [VRef l1])) by apply lookup_insert_eq.
  assert (S12 : h1 ⊆ h2) by apply alloc_subseteq.
  assert (S23 : h2 ⊆ <[l3 := response_cell l2]> h2) by apply alloc_subseteq.
  exists l1, l2. split_and!.
  - apply lookup_insert_eq.
  - by eapply lookup_weaken.
  - eapply lookup_weaken; [|exact S23]. by eapply lookup_weaken.
  - pose proof (fresh_lookup h2) as Hf. fold l3 in Hf.
    destruct (h !! l3) as [c|] eqn:Hl; [|done].
    assert (h2 !! l3 = Some c); [|congruence].
    eapply lookup_weaken; [|exact S12].
    eapply lookup_weaken; [exact Hl|apply alloc_subseteq].
Qed.

Lemma response_store_tree (h : heap) (text : string) :
  tree_of enumerable_props 3 (response_store h text).2 (VRef (response_store h text).1)
  = Some (error_response text).
Proof.
  destruct (response_store_lookup h text) as (l1 & l2 & H3 & H2 & H1 & _).
  rewrite tree_of_ref, H3. cbn [response_cell enumerable_props].
  change (own_props [("content", VRef l2); ("isError", VBool true)])
    with [("content", VRef l2); ("isError", VBool true)].
  cbn [mapM]. unfold tree_member. cbn [fst snd]. rewrite tree_of_ref, H2.
  cbn [mapM]. rewrite tree_of_ref, H1. done.
Qed.

Lemma response_store_text (h : heap) (text : string) :
  response_text (response_store h text).2 (response_store h text).1 = Some text.
Proof.
  destruct (response_store_lookup h text) as (l1 & l2 & H3 & H2 & H1 & _).
  unfold response_text. rewrite H3. cbn [mbind option_bind].
  change (get_prop (response_cell l2) "content") with (VRef l2).
  cbn [deref]. rewrite H2. cbn [mbind option_bind].
  change (get_prop (CArray [VRef l1]) "0") with (VRef l1).
  cbn [deref]. by rewrite H1.
Qed.

Lemma tree_of_weaken (view : cell → list (string * value)) (h h' : heap) (n : nat) :
  h ⊆ h' →
  ∀ (v : value) (t : json), tree_of view n h v = Some t → tree_of view n h' v = Some t.
Proof.
  intros Hsub. induction n as [|n IH]; intros v t Ht.
  { by destruct v. }
  destruct v as [| | | | | |l]; try done.
  rewrite tree_of_ref in Ht |- *.
  destruct (h !! l) as [c|] eqn:Hl; [|done].
  rewrite (lookup_weaken _ _ _ _ Hl Hsub).
  destruct c as [props|elems|e];
    apply fmap_Some in Ht as (ts & Hm & ->); apply fmap_Some; exists ts;
    (split; [|done]); apply mapM_Some; apply mapM_Some in Hm;
    (eapply Forall2_impl; [exact Hm|]).
  - intros [k v] kt. unfold tree_member; cbn [fst snd].
    destruct (tree_of view n h v) as [t'|] eqn:Hv; [|done]. by rewrite (IH _ _ Hv).
  - intros v t'. apply IH.
  - intros [k v] kt. unfold tree_member; cbn [fst snd].
    destruct (tree_of view n h v) as [t'|] eqn:Hv; [|done]. by rewrite (IH _ _ Hv).
Qed.

Lemma serializable_weaken (h h' : heap) (v : value) :
  h ⊆ h' → serializable h v → serializable h' v.
Proof.
  intros Hsub [n [t Ht]]. exists n, t. by eapply tree_of_weaken.
Qed.

Lemma details_text_tree (h : heap) (d : value) (n : nat) (t : json) :
  details_typed h d →
  tree_of enumerable_props n h d = Some t →
  details_text h d = Ok (details_block t).
Proof.
  intros Htyped Ht. unfold details_text, details_block.
  destruct Htyped as [->|(l & props & -> & Hl)].
  { destruct n; by simplify_eq/=. }
  cbn [ToBoolean].
  rewrite (SerializeJSONProperty_pretty h n (VRef l) t Ht (S (size h)) [] 0);
    [| apply NoDup_nil_2 | by intros s ?%elem_of_nil | by intros s ?%elem_of_nil
     | simpl; lia].
  res_simpl.
  destruct n as [|n]; [done|]. rewrite tree_of_ref, Hl in Ht.
  by apply fmap_Some in Ht as (ts & _ & ->).
Qed.

Lemma details_text_definite (h : heap) (d : value) :
  closed h → allocated h d → definite (details_text h d).
Proof.
  intros Hc Hd. unfold details_text. destruct (ToBoolean d); [|done].
  pose proof (SerializeJSONProperty_definite h (gap_of_space 2) Hc
                (S (size h)) [] "" d Hd (NoDup_nil_2)) as Hdef.
  destruct (SerializeJSONProperty _ _ _ _ _ _); try done;
    apply Hdef; (by intros s ?%elem_of_nil) || (simpl; lia).
Qed.

(** A completed rendering of [details] is the same in every larger store. *)
Lemma details_text_stable (h h' : heap) (d : value) :
  h ⊆ h' → definite (details_text h d) → details_text h' d = details_text h d.
Proof.
  intros Hsub. unfold details_text. destruct (ToBoolean d); [|done].
  intros Hdef.
  rewrite (SerializeJSONProperty_stable h h' _ (S (size h)) Hsub); [done| |].
  - apply le_n_S. by apply map_subseteq_size.
  - by destruct (SerializeJSONProperty h _ _ _ _ _).
Qed.

(** ** Running the schema *)

Lemma ZodNativeEnum_parse_run (path : list string) (data : value) (h : heap) :
  ZodNativeEnum_parse path data h
  = (t ← getParsedType h data; Ok (enum_verdict path data t), h).
Proof.
  unfold ZodNativeEnum_parse, enum_verdict, M_bind, inspect, M_ret.
  destruct (getParsedType h data) as [t| | |]; res_simpl; try done.
  destruct (bool_decide (t ≠ zpt_string) && bool_decide (t ≠ zpt_number)); [done|].
  by destruct (negb (enum_member data)).
Qed.

Lemma ZodString_parse_run (path : list string) (data : value) (h : heap) :
  ZodString_parse path data h
  = (t ← getParsedType h data; Ok (string_verdict path data t), h).
Proof.
  unfold ZodString_parse, string_verdict, M_bind, inspect, M_ret.
  destruct (getParsedType h data) as [t| | |]; res_simpl; try done.
  by destruct (bool_decide (t = zpt_string)).
Qed.

Lemma parse_keys_unknown (c : cell) (path : list string)
    (fields : list (string * value)) (h : heap) :
  parse_keys c path ((λ kv, (kv.1, ZodUnknown_parse)) <$> fields) h
  = (Ok ([], (λ kv, mkPair kv.1 (OK (get_prop c kv.1)) (has_prop c kv.1)) <$> fields), h).
Proof.
  induction fields as [|[k v] fields IH]; [done|].
  cbn [fmap list_fmap parse_keys fst snd].
  unfold M_bind at 1. unfold ZodUnknown_parse at 1, M_ret at 1.
  unfold M_bind at 1. rewrite IH. done.
Qed.

Lemma merge_pairs_valid (pairs : list pair_result) (final : list (string * value)) :
  Forall (λ p, pair_value p ≠ INVALID) pairs → is_Some (merge_pairs final pairs).
Proof.
  intros Hall. revert final.
  induction Hall as [|p pairs Hp _ IH]; intros final; [by eexists|].
  cbn [merge_pairs]. destruct (pair_value p); [|done].
  destruct (_ && _); apply IH.
Qed.

Lemma merge_pairs_record (c : cell) :
  merge_pairs [] (record_pairs c) = Some (record_copy c).
Proof.
  unfold record_copy.
  destruct (merge_pairs_valid (record_pairs c) []) as [final ->]; [|done].
  unfold record_pairs. apply Forall_fmap, Forall_forall. by intros.
Qed.

Lemma details_parse_run (path : list string) (d : value) (h : heap) :
  ZodOptional_parse (ZodRecord_parse ZodUnknown_parse) path d h = details_run path d h.
Proof.
  unfold ZodOptional_parse, ZodRecord_parse, details_run, M_bind at 1, inspect at 1.
  destruct (getParsedType h d) as [t| | |] eqn:Ht; try done.
  destruct (decide (t = zpt_undefined)) as [->|Hu].
  { by rewrite bool_decide_eq_true_2. }
  rewrite bool_decide_eq_false_2 by done.
  unfold M_bind at 1, inspect at 1. rewrite Ht.
  destruct (decide (t = zpt_object)) as [->|Ho].
  2:{ rewrite bool_decide_eq_true_2 by done. by destruct t. }
  rewrite bool_decide_eq_false_2 by (by intros []).
  destruct d as [| | | [] | | |l]; try done.
  cbn [getParsedType deref] in *.
  unfold M_bind at 1, read. destruct (h !! l) as [c|]; [|done].
  unfold M_bind at 1. rewrite parse_keys_unknown. cbn [fst snd].
  unfold M_bind at 1, mergeObjectSync.
  change ((λ kv : string * value, mkPair kv.1 (OK (get_prop c kv.1)) (has_prop c kv.1))
            <$> enumerable_props c) with (record_pairs c).
  rewrite merge_pairs_record. done.
Qed.

(** The run of [ErrorSchema] on an object that is not an array: the three
    fields are parsed in the order of the shape, [details] possibly
    allocating its copy, and the pairs are merged into a new object. *)
Lemma ErrorSchema_run (h : heap) (l : loc) (c : cell) :
  h !! l = Some c →
  (∀ elems, c ≠ CArray elems) →
  ErrorSchema [] (VRef l) h
  = match getParsedType h (get_prop c "code"),
          getParsedType h (get_prop c "message"),
          details_run ["details"] (get_prop c "details") h with
    | Ok t1, Ok t2, (Ok r3, h3) =>
        let r1 := enum_verdict ["code"] (get_prop c "code") t1 in
        let r2 := string_verdict ["message"] (get_prop c "message") t2 in
        match merge_pairs []
                [mkPair "code" r1.2 (has_prop c "code");
                 mkPair "message" r2.2 (has_prop c "message");
                 mkPair "details" r3.2 (has_prop c "details")] with
        | None => (Ok ((r1.1 ++ r2.1 ++ r3.1), INVALID), h3)
        | Some final =>
            (Ok ((r1.1 ++ r2.1 ++ r3.1), OK (VRef (fresh (dom h3)))),
             <[fresh (dom h3) := CObject final]> h3)
        end
    | Ok _, Ok _, (Throw x, h3) => (Throw x, h3)
    | Ok _, Ok _, (Stuck, h3) => (Stuck, h3)
    | Ok _, Ok _, (OutOfFuel, h3) => (OutOfFuel, h3)
    | Ok _, Throw x, _ => (Throw x, h)
    | Ok _, Stuck, _ => (Stuck, h)
    | Ok _, OutOfFuel, _ => (OutOfFuel, h)
    | Throw x, _, _ => (Throw x, h)
    | Stuck, _, _ => (Stuck, h)
    | OutOfFuel, _, _ => (OutOfFuel, h)
    end.
Proof.
  intros Hl Hc.
  unfold ErrorSchema, ZodObject_parse, M_bind at 1, inspect at 1.
  cbn [getParsedType]. rewrite Hl.
  assert (match c with CArray _ => Ok zpt_array | _ => Ok zpt_object end
          = Ok zpt_object) as ->.
  { destruct c; try done. by destruct (Hc elems). }
  rewrite bool_decide_eq_false_2 by (by intros []).
  unfold M_bind at 1, read. rewrite Hl.
  unfold M_bind at 1. cbn [parse_keys app].
  unfold M_bind at 1. rewrite ZodNativeEnum_parse_run.
  destruct (getParsedType h (get_prop c "code")) as [t1| | |];
    res_simpl; try done.
  unfold M_bind at 1. unfold M_bind at 1. rewrite ZodString_parse_run.
  destruct (getParsedType h (get_prop c "message")) as [t2| | |];
    res_simpl; try done.
  unfold M_bind at 1. unfold M_bind at 1. rewrite details_parse_run.
  destruct (details_run ["details"] (get_prop c "details") h) as [[r3| | |] h3];
    try done.
  unfold M_bind at 1. unfold M_ret at 1. unfold M_ret at 1. unfold M_ret at 1.
  unfold M_ret at 1. cbn [fst snd].
  unfold M_bind at 1, mergeObjectSync. cbv zeta.
  rewrite app_nil_r.
  destruct (merge_pairs _ _); done.
Qed.

(** ** The external error shape *)

Lemma registry_member (s : string) :
  s ∈ nativeEnumValues ↔ ∃ cd, s = code_value cd.
Proof.
  split.
  - unfold nativeEnumValues. intros (cd & -> & _)%list_elem_of_fmap. by exists cd.
  - intros [cd ->]. apply list_elem_of_fmap. exists cd. split; [done|].
    destruct cd; unfold BaseErrorCode_members; set_solver.
Qed.

Lemma enum_member_registry (data : value) :
  enum_member data = true ↔ ∃ cd, data = VString (code_value cd).
Proof.
  destruct data as [| | | |s| |]; cbn [enum_member];
    try (split; [done|by intros [? ?]]).
  rewrite bool_decide_eq_true, registry_member.
  split; intros [cd Hcd]; exists cd; congruence.
Qed.

Lemma getParsedType_string (h : heap) (d : value) :
  getParsedType h d = Ok zpt_string ↔ ∃ s, d = VString s.
Proof.
  split; [|by intros [s ->]].
  destruct d as [| | |[]| | |l]; cbn; try done; [by eexists|].
  by destruct (h !! l) as [[]|].
Qed.

Lemma getParsedType_number (h : heap) (d : value) :
  getParsedType h d = Ok zpt_number → ∃ n, d = VNumber n.
Proof.
  destruct d as [| | |[]| | |l]; cbn; try done; try by eexists.
  by destruct (h !! l) as [[]|].
Qed.

Lemma getParsedType_undefined (h : heap) (d : value) :
  getParsedType h d = Ok zpt_undefined ↔ d = VUndefined.
Proof.
  split; [|by intros ->].
  destruct d as [| | |[]| | |l]; cbn; try done.
  by destruct (h !! l) as [[]|].
Qed.

Lemma getParsedType_object (h : heap) (d : value) :
  getParsedType h d = Ok zpt_object
  ↔ ∃ l c, d = VRef l ∧ h !! l = Some c ∧ is_mapping c.
Proof.
  split.
  - destruct d as [| | |[]| | |l]; cbn; try done.
    destruct (h !! l) as [c|] eqn:Hl; [|done].
    intros Hc. exists l, c. split_and!; [done..|]. intros elems ->. done.
  - intros (l & c & -> & Hl & Hc). cbn. rewrite Hl.
    destruct c; try done. by destruct (Hc elems).
Qed.

Lemma getParsedType_allocated (h : heap) (d : value) :
  allocated h d → ∃ t, getParsedType h d = Ok t.
Proof.
  destruct d as [| | |[]| | |l]; cbn; try by eexists.
  intros [c ->]. destruct c; by eexists.
Qed.

Lemma assoc_elem_of (k : string) (props : list (string * value)) (v : value) :
  assoc k props = Some v → v ∈ props.*2.
Proof.
  induction props as [|[k' v'] props IH]; [done|]. cbn [assoc].
  case_bool_decide.
  - intros [= ->]. by left.
  - intros Hv. right. by apply IH.
Qed.

Lemma get_prop_allocated (h : heap) (l : loc) (c : cell) (k : string) :
  closed h → h !! l = Some c → allocated h (get_prop c k).
Proof.
  intros Hclosed Hl. pose proof (Hclosed l c Hl) as Hall.
  rewrite Forall_forall in Hall. unfold get_prop.
  destruct (assoc k (all_props c)) as [v|] eqn:Hv; [|done]. cbn [default].
  destruct c as [props|elems|e]; cbn [all_props cell_values] in *.
  - eapply Hall, assoc_elem_of, Hv.
  - apply assoc_elem_of in Hv. rewrite fmap_app in Hv.
    apply elem_of_app in Hv as [Hv|Hv].
    + apply Hall. apply list_elem_of_fmap in Hv as ([k' v'] & -> & Hv).
      apply elem_of_lookup_imap in Hv as (i & x & [= -> ->] & Hi).
      by eapply list_elem_of_lookup_2.
    + apply list_elem_of_singleton in Hv as ->. done.
  - apply assoc_elem_of in Hv. cbn in Hv.
    rewrite !elem_of_cons, elem_of_nil in Hv.
    destruct Hv as [->|[->|[->|[->|[]]]]]; try done.
    apply Hall. by left.
Qed.

Lemma safeParse_run (schema : parser) (data : value) (h : heap) :
  safeParse schema data h
  = match schema [] data h with
    | (Ok r, h') =>
        (Ok (match r.2 with
             | OK v => SafeParseSuccess v
             | INVALID => SafeParseError r.1
             end), h')
    | (Throw x, h') => (Throw x, h')
    | (Stuck, h') => (Stuck, h')
    | (OutOfFuel, h') => (OutOfFuel, h')
    end.
Proof.
  unfold safeParse, M_bind. destruct (schema [] data h) as [[r| | |] h']; try done.
  by destruct (r.2).
Qed.

Lemma ErrorSchema_not_object (h : heap) (v : value) (t : ZodParsedType) :
  getParsedType h v = Ok t → t ≠ zpt_object →
  ErrorSchema [] v h = (Ok ([invalid_type [] "object" t], INVALID), h).
Proof.
  intros Ht Hne. unfold ErrorSchema, ZodObject_parse, M_bind at 1, inspect at 1.
  rewrite Ht. by rewrite bool_decide_eq_true_2.
Qed.

Lemma ErrorSchema_unallocated (h : heap) (l : loc) :
  h !! l = None → ErrorSchema [] (VRef l) h = (Stuck, h).
Proof.
  intros Hl. unfold ErrorSchema, ZodObject_parse, M_bind at 1, inspect at 1.
  cbn [getParsedType]. by rewrite Hl.
Qed.

Lemma merge_three (v1 v2 v3 : value) (a1 a2 a3 : bool) :
  merge_pairs [] [mkPair "code" (OK v1) a1; mkPair "message" (OK v2) a2;
                  mkPair "details" (OK v3) a3]
  = Some ((if kept v1 a1 then [("code", v1)] else [])
          ++ (if kept v2 a2 then [("message", v2)] else [])
          ++ (if kept v3 a3 then [("details", v3)] else [])).
Proof.
  unfold kept. cbn [merge_pairs pair_value pair_key alwaysSet].
  destruct (negb (bool_decide (v1 = VUndefined)) || a1),
           (negb (bool_decide (v2 = VUndefined)) || a2),
           (negb (bool_decide (v3 = VUndefined)) || a3); reflexivity.
Qed.

Lemma merge_three_invalid (r1 r2 r3 : ParseReturn) (a1 a2 a3 : bool) :
  merge_pairs [] [mkPair "code" r1 a1; mkPair "message" r2 a2; mkPair "details" r3 a3]
  = None
  ↔ r1 = INVALID ∨ r2 = INVALID ∨ r3 = INVALID.
Proof.
  destruct r1 as [v1|], r2 as [v2|], r3 as [v3|];
    try rewrite merge_three; try (split; [by auto|done]).
  - split; [done|]. by intros [|[|]].
  - cbn [merge_pairs pair_value pair_key alwaysSet].
    destruct (_ && _); destruct (_ && _); split; auto.
  - cbn [merge_pairs pair_value pair_key alwaysSet].
    destruct (_ && _); split; auto.
  - cbn [merge_pairs pair_value pair_key alwaysSet].
    destruct (_ && _); split; auto.
Qed.

Lemma has_prop_get (c : cell) (k : string) :
  get_prop c k ≠ VUndefined → has_prop c k = true.
Proof.
  unfold get_prop, has_prop. destruct (assoc k (all_props c)); [|done].
  intros _. by apply bool_decide_eq_true_2.
Qed.

(** The run of the schema on an object of the valid shape. *)
Lemma ErrorSchema_accepts (h : heap) (l : loc) (c : cell) :
  h !! l = Some c →
  is_mapping c →
  (∃ cd, get_prop c "code" = VString (code_value cd)) →
  (∃ s, get_prop c "message" = VString s) →
  (get_prop c "details" = VUndefined
   ∨ ∃ l' c', get_prop c "details" = VRef l' ∧ h !! l' = Some c' ∧ is_mapping c') →
  ∃ d h3,
    ErrorSchema [] (VRef l) h
    = (Ok ([], OK (VRef (fresh (dom h3)))),
       <[fresh (dom h3) := CObject (stripped c d)]> h3)
    ∧ ((get_prop c "details" = VUndefined ∧ d = VUndefined ∧ h3 = h)
       ∨ (∃ l' c', get_prop c "details" = VRef l' ∧ h !! l' = Some c'
                   ∧ d = VRef (fresh (dom h))
                   ∧ h3 = <[fresh (dom h) := CObject (record_copy c')]> h)).
Proof.
  intros Hl Hc [cd Hcode] [s Hmsg] Hdet.
  rewrite (ErrorSchema_run h l c Hl Hc).
  rewrite Hcode, Hmsg. cbn [getParsedType].
  assert (enum_verdict ["code"] (VString (code_value cd)) zpt_string
          = ([], OK (VString (code_value cd)))) as ->.
  { unfold enum_verdict.
    rewrite (proj2 (enum_member_registry _)) by by exists cd. done. }
  change (string_verdict ["message"] (VString s) zpt_string) with
    (@nil ZodIssue, OK (VString s)).
  assert (Hcode' : has_prop c "code" = true) by (apply has_prop_get; by rewrite Hcode).
  assert (Hmsg' : has_prop c "message" = true) by (apply has_prop_get; by rewrite Hmsg).
  destruct Hdet as [Hd|(l' & c' & Hd & Hl' & Hc')].
  - exists VUndefined, h. rewrite Hd. unfold details_run. cbn [getParsedType].
    cbv zeta. cbn [fst snd]. rewrite merge_three. unfold kept, stripped.
    rewrite Hcode, Hmsg, Hcode', Hmsg'. cbn [negb bool_decide orb app].
    split; [|left; done].
    rewrite bool_decide_eq_false_2 by done. rewrite bool_decide_eq_false_2 by done.
    rewrite bool_decide_eq_true_2 by done. cbn [negb orb app].
    by destruct (has_prop c "details").
  - exists (VRef (fresh (dom h))), (<[fresh (dom h) := CObject (record_copy c')]> h).
    rewrite Hd. unfold details_run.
    rewrite (proj2 (getParsedType_object h (VRef l'))) by (by exists l', c').
    cbn [deref]. rewrite Hl'. cbv zeta. cbn [fst snd]. rewrite merge_three.
    unfold kept, stripped. rewrite Hcode, Hmsg.
    rewrite (has_prop_get c "details") by (by rewrite Hd).
    rewrite !bool_decide_eq_false_2 by done. cbn [negb orb app].
    split; [done|]. right. by exists l', c'.
Qed.

(** The schema accepts only objects of the valid shape. *)
Lemma ErrorSchema_accepted_shape (h : heap) (v out : value)
    (issues : list ZodIssue) (h' : heap) :
  ErrorSchema [] v h = (Ok (issues, OK out), h') → shape_valid h v.
Proof.
  intros Hrun.
  destruct (getParsedType h v) as [t| | |] eqn:Ht.
  2-4: (destruct v as [| | |[]| | |l]; try done; cbn in Ht;
        destruct (h !! l) as [[]|] eqn:Hl; try done;
        by rewrite (ErrorSchema_unallocated h l Hl) in Hrun).
  destruct (decide (t = zpt_object)) as [->|Hne].
  2:{ by rewrite (ErrorSchema_not_object h v t Ht Hne) in Hrun. }
  apply getParsedType_object in Ht as (l & c & -> & Hl & Hc).
  rewrite (ErrorSchema_run h l c Hl Hc) in Hrun.
  destruct (getParsedType h (get_prop c "code")) as [t1| | |] eqn:H1; try done.
  destruct (getParsedType h (get_prop c "message")) as [t2| | |] eqn:H2; try done.
  destruct (details_run ["details"] (get_prop c "details") h)
    as [[r3| | |] h3] eqn:H3; try done.
  cbv zeta in Hrun.
  destruct (merge_pairs _ _) as [final|] eqn:Hm; [|done].
  assert (Hvalid : ¬ ((enum_verdict ["code"] (get_prop c "code") t1).2 = INVALID
                      ∨ (string_verdict ["message"] (get_prop c "message") t2).2 = INVALID
                      ∨ r3.2 = INVALID)).
  { intros Hinv. eapply (proj2 (merge_three_invalid _ _ _ _ _ _)) in Hinv.
    by rewrite Hinv in Hm. }
  exists l, c. split_and!; try done.
  - unfold enum_verdict in Hvalid.
    destruct (bool_decide (t1 ≠ zpt_string) && bool_decide (t1 ≠ zpt_number));
      [by destruct Hvalid; left|].
    destruct (enum_member (get_prop c "code")) eqn:He;
      [|by destruct Hvalid; left].
    by apply enum_member_registry.
  - unfold string_verdict in Hvalid. case_bool_decide as Ht2.
    + subst t2. by apply getParsedType_string in H2.
    + destruct Hvalid. right. by left.
  - unfold details_run in H3.
    destruct (getParsedType h (get_prop c "details")) as [t3| | |] eqn:Hd; try done.
    destruct (decide (t3 = zpt_undefined)) as [->|Hu].
    { left. by apply getParsedType_undefined in Hd. }
    destruct (decide (t3 = zpt_object)) as [->|Ho].
    { right. apply getParsedType_object in Hd as (l' & c' & Hd & Hl' & Hc').
      by exists l', c'. }
    destruct Hvalid. right. right.
    destruct t3; try done; by simplify_eq.
Qed.

(** ** The rendered response *)

Lemma toResponse_tree (h : heap) (this : loc) (e : McpError) (n : nat) (t : json) :
  h !! this = Some (CError e) →
  details_typed h (details e) →
  tree_of enumerable_props n h (details e) = Some t →
  toResponse this h
  = (Ok (response_store h (header e +:+ details_block t)).1,
     (response_store h (header e +:+ details_block t)).2).
Proof.
  intros Hthis Htyped Ht. rewrite (toResponse_run this h e Hthis).
  by rewrite (details_text_tree h _ n t Htyped Ht).
Qed.

Lemma new_McpError_run (c : BaseErrorCode) (msg : string) (d : value) (h : heap) :
  new_McpError c msg d h
  = (Ok (fresh (dom h)), <[fresh (dom h) := CError (mkMcpError c msg d "McpError")]> h).
Proof. done. Qed.

(** The detail-free example of the specification. *)
Example render_without_details :
  rendered_text NOT_FOUND "missing widget" VUndefined ∅
  = Some "Error [NOT_FOUND]: missing widget".
Proof. by vm_compute. Qed.

(** The detail-present example: the text starts with the header and the
    [Details: ] line, and the mapping is indented by two spaces. *)
Example render_with_details :
  rendered_text VALIDATION_ERROR "bad field" (VRef 1%positive) store_field
  = Some ("Error [VALIDATION_ERROR]: bad field" +:+ LF +:+ "Details: "
          +:+ "{" +:+ LF
          +:+ "  " +:+ DQUOTE +:+ "field" +:+ DQUOTE +:+ ": "
          +:+ DQUOTE +:+ "name" +:+ DQUOTE +:+ LF
          +:+ "}").
Proof. by vm_compute. Qed.

(** A cyclic [details] makes [JSON.stringify] throw. *)
Example render_cyclic_details :
  (construct_and_render INTERNAL_ERROR "loop" (VRef 1%positive) store_cyclic).1
  = Throw TypeError_cyclic.
Proof. by vm_compute. Qed.




(** C9.  When [details] is the empty object the text still carries the
    block: it is the header, a newline and [Details: {}]. *)
Theorem toResponse_empty_details (h : heap) (this l : loc) (e : McpError) :
  h !! this = Some (CError e) →
  details e = VRef l →
  h !! l = Some (CObject []) →
  ∃ r h',
    toResponse this h = (Ok r, h')
    ∧ response_text h' r = Some (header e +:+ LF +:+ "Details: {}").
Proof.
  intros Hthis Hd Hl.
  assert (Ht : tree_of enumerable_props 1 h (details e) = Some (JObject [])).
  { by rewrite Hd, tree_of_ref, Hl. }
  eexists _, _. split.
  - eapply toResponse_tree; [done| |done]. right. by exists l, [].
  - apply response_store_text.
Qed.

Lemma toResponse_empty_details_witness :
  ∃ r h',
    toResponse 2%positive store_missing_widget = (Ok r, h')
    ∧ response_text h' r
      = Some ("Error [NOT_FOUND]: missing widget" +:+ LF +:+ "Details: {}").
Proof.
  apply (toResponse_empty_details store_missing_widget 2%positive 1%positive
           missing_widget); reflexivity.
Defined.

(** C3 (as amended).  For every code, message and [details] that is absent
    or a plain object of serializable values, constructing the error and
    calling [toResponse] returns a response object with exactly the fields
    [content] and [isError], where [content] is an array of exactly one item
    [{type: "text", text}] and [isError] is [true]. *)
Theorem toResponse_shape (h : heap) (c : BaseErrorCode) (msg : string) (d : value) :
  details_typed h d →
  serializable h d →
  ∃ r h' arr item text,
    construct_and_render c msg d h = (Ok r, h')
    ∧ h' !! r = Some (CObject [("content", VRef arr); ("isError", VBool true)])
    ∧ h' !! arr = Some (CArray [VRef item])
    ∧ h' !! item = Some (CObject [("type", VString "text"); ("text", VString text)]).
Proof.
  intros Htyped [n [t Ht]].
  unfold construct_and_render, M_bind. rewrite new_McpError_run.
  set (this := fresh (dom h)).
  set (e := mkMcpError c msg d "McpError").
  set (h1 := <[this := CError e]> h).
  assert (Hsub : h ⊆ h1) by apply alloc_subseteq.
  rewrite (toResponse_tree h1 this e n t).
  - destruct (response_store_lookup h1 (header e +:+ details_block t))
      as (l1 & l2 & H3 & H2 & H1 & _).
    by eexists _, _, l2, l1, _.
  - apply lookup_insert_eq.
  - destruct Htyped as [->|(l & props & -> & Hl)]; [by left|right].
    exists l, props. split; [done|]. by eapply lookup_weaken.
  - by eapply tree_of_weaken.
Qed.

Lemma toResponse_shape_witness :
  ∃ r h' arr item text,
    construct_and_render VALIDATION_ERROR "bad field" (VRef 1%positive) store_field
    = (Ok r, h')
    ∧ h' !! r = Some (CObject [("content", VRef arr); ("isError", VBool true)])
    ∧ h' !! arr = Some (CArray [VRef item])
    ∧ h' !! item = Some (CObject [("type", VString "text"); ("text", VString text)]).
Proof.
  apply (toResponse_shape store_field VALIDATION_ERROR "bad field" (VRef 1%positive)).
  - right. exists 1%positive, [("field", VString "name")]. split; reflexivity.
  - exists 1. vm_compute. eexists. reflexivity.
Defined.

(** C3 as stated fails: with [details = {n: 1n}], a well-typed
    [Record<string, unknown>], [JSON.stringify] throws a TypeError and
    [toResponse] returns no response. *)
Lemma toResponse_shape_not_unconditional :
  details_typed store_bigint (VRef 1%positive)
  ∧ (construct_and_render VALIDATION_ERROR "bad field" (VRef 1%positive)
       store_bigint).1 = Throw TypeError_bigint
  ∧ ¬ ∃ r h',
        construct_and_render VALIDATION_ERROR "bad field" (VRef 1%positive)
          store_bigint = (Ok r, h').
Proof.
  split_and!.
  - right. exists 1%positive, [("n", VBigInt 1)]. split; reflexivity.
  - by vm_compute.
  - intros (r & h' & Hrun).
    apply (f_equal fst) in Hrun. vm_compute in Hrun. discriminate.
Qed.

(** C7.  The constructor always returns a new instance holding its
    arguments, and when [details] holds only serializable values (no BigInt,
    no cycle) [toResponse] on that instance returns normally. *)
Theorem construct_and_render_total (h : heap) (c : BaseErrorCode) (msg : string)
    (d : value) :
  ∃ this h1,
    new_McpError c msg d h = (Ok this, h1)
    ∧ h !! this = None
    ∧ h1 !! this = Some (CError (mkMcpError c msg d "McpError"))
    ∧ (serializable h d → ∃ r h2, toResponse this h1 = (Ok r, h2)).
Proof.
  exists (fresh (dom h)), (<[fresh (dom h) := CError (mkMcpError c msg d "McpError")]> h).
  split_and!; [done|auto with store|apply lookup_insert_eq|].
  intros [n [t Ht]].
  set (h1 := <[_ := _]> h). set (this := fresh (dom h)).
  assert (Hsub : h ⊆ h1) by (subst h1; auto with store).
  rewrite (toResponse_run this h1 (mkMcpError c msg d "McpError"))
    by apply lookup_insert_eq.
  cbn [details]. unfold details_text.
  destruct (ToBoolean d); [|by eexists _, _].
  rewrite (SerializeJSONProperty_pretty h1 n d t (tree_of_weaken _ _ _ _ Hsub _ _ Ht)
             (S (size h1)) [] 0);
    [| apply NoDup_nil_2 | by intros s ?%elem_of_nil | by intros s ?%elem_of_nil
     | simpl; lia].
  by eexists _, _.
Qed.

Lemma construct_and_render_total_witness :
  serializable store_field (VRef 1%positive)
  ∧ ∃ this h1 r h2,
      new_McpError VALIDATION_ERROR "bad field" (VRef 1%positive) store_field
      = (Ok this, h1)
      ∧ toResponse this h1 = (Ok r, h2).
Proof.
  assert (Hser : serializable store_field (VRef 1%positive)).
  { exists 1. vm_compute. eexists. reflexivity. }
  split; [exact Hser|].
  destruct (construct_and_render_total store_field VALIDATION_ERROR "bad field"
              (VRef 1%positive)) as (this & h1 & Hnew & _ & _ & Hrender).
  destruct (Hrender Hser) as (r & h2 & Hrun).
  exists this, h1, r, h2. split; [exact Hnew | exact Hrun].
Defined.

(** Conversely a normal return means that a truthy [details] denotes a
    tree: outside the serializable values [toResponse] throws. *)
Lemma toResponse_Ok_serializable (h : heap) (this r : loc) (e : McpError) (h' : heap) :
  h !! this = Some (CError e) →
  details_typed h (details e) →
  toResponse this h = (Ok r, h') →
  serializable h (details e).
Proof.
  intros Hthis Htyped. rewrite (toResponse_run this h e Hthis).
  destruct Htyped as [->|(l & props & -> & Hl)].
  { intros _. exists 0. by eexists. }
  unfold details_text. cbn [ToBoolean].
  destruct (SerializeJSONProperty _ _ _ _ _ _) as [o| | |] eqn:Hs; try done.
  intros _. exists (S (size h)). by eapply SerializeJSONProperty_Ok_tree.
Qed.

Lemma toResponse_subseteq (h : heap) (this : loc) : h ⊆ (toResponse this h).2.
Proof.
  destruct (h !! this) as [[props|elems|e]|] eqn:Hthis;
    try (rewrite toResponse_not_error by congruence; done).
  rewrite (toResponse_run this h e Hthis).
  destruct (details_text h (details e)); try done.
  apply response_store_subseteq.
Qed.

(** C8.  [toResponse] writes to no existing cell: every cell of the store
    before the call is the same after it, whatever the outcome, and a call
    that throws leaves the store as it was.  So an instance still holds the
    [code], [message] and [details] it was constructed with, and the
    [details] object is untouched. *)
Theorem toResponse_frame (h : heap) (this : loc) :
  h ⊆ (toResponse this h).2
  ∧ (∀ x, (toResponse this h).1 = Throw x → (toResponse this h).2 = h)
  ∧ (∀ c msg d,
       ∃ inst h1,
         new_McpError c msg d h = (Ok inst, h1)
         ∧ (toResponse inst h1).2 !! inst
           = Some (CError (mkMcpError c msg d "McpError"))).
Proof.
  split_and!; [apply toResponse_subseteq| |].
  - intros x.
    destruct (h !! this) as [[props|elems|e]|] eqn:Hthis;
      try (rewrite toResponse_not_error by congruence; done).
    rewrite (toResponse_run this h e Hthis).
    by destruct (details_text h (details e)).
  - intros c msg d. eexists _, _. split; [apply new_McpError_run|].
    eapply lookup_weaken; [apply lookup_insert_eq|apply toResponse_subseteq].
Qed.

Lemma toResponse_frame_witness :
  (toResponse 2%positive store_bad_field).2 !! 2%positive = Some (CError bad_field)
  ∧ (toResponse 2%positive store_bad_field).2 !! 1%positive
    = Some (CObject [("field", VString "name")]).
Proof.
  destruct (toResponse_frame store_bad_field 2%positive) as (Hsub & _).
  assert (H2 : store_bad_field !! 2%positive = Some (CError bad_field))
    by reflexivity.
  assert (H1 : store_bad_field !! 1%positive
               = Some (CObject [("field", VString "name")])) by reflexivity.
  split; [exact (lookup_weaken _ _ _ _ H2 Hsub)|exact (lookup_weaken _ _ _ _ H1 Hsub)].
Defined.

(** C6.  The outcome of [toResponse] on an instance of a closed store [h]
    is a function of that store alone: in every store [h'] that extends [h]
    (in particular in the store the first call leaves behind, so for two
    successive calls) the call completes in the same way.  Both calls throw
    the same error, or both return responses that unfold to the same tree,
    with equal [text], [content] and [isError]. *)
Theorem toResponse_deterministic (h h' : heap) (this : loc) (e : McpError) :
  closed h →
  h !! this = Some (CError e) →
  h ⊆ h' →
  h ⊆ (toResponse this h).2
  ∧ ((∃ x, toResponse this h = (Throw x, h) ∧ toResponse this h' = (Throw x, h'))
     ∨ (∃ r r' text,
          (toResponse this h).1 = Ok r ∧ (toResponse this h').1 = Ok r'
          ∧ response_text (toResponse this h).2 r = Some text
          ∧ response_text (toResponse this h').2 r' = Some text
          ∧ tree_of enumerable_props 3 (toResponse this h).2 (VRef r)
            = Some (error_response text)
          ∧ tree_of enumerable_props 3 (toResponse this h').2 (VRef r')
            = Some (error_response text))).
Proof.
  intros Hclosed Hthis Hsub. split; [apply toResponse_subseteq|].
  rewrite (toResponse_run this h e Hthis).
  rewrite (toResponse_run this h' e (lookup_weaken _ _ _ _ Hthis Hsub)).
  assert (Hdef : definite (details_text h (details e))).
  { apply details_text_definite; [done|].
    pose proof (Hclosed this _ Hthis) as Hall. cbn [cell_values] in Hall.
    by inversion Hall. }
  rewrite (details_text_stable h h' _ Hsub Hdef).
  destruct (details_text h (details e)) as [s|x| |]; try done.
  - right. cbn [fst snd]. set (text := header e +:+ s).
    exists (response_store h text).1, (response_store h' text).1, text.
    split_and!; try done;
      first [apply response_store_text | apply response_store_tree].
  - left. by exists x.
Qed.

Lemma store_bad_field_closed : closed store_bad_field.
Proof.
  intros l c Hl. unfold store_bad_field, store_field in Hl.
  apply lookup_insert_Some in Hl as [[_ <-]|[_ Hl]].
  - repeat constructor. by eexists.
  - apply lookup_singleton_Some in Hl as [_ <-]. by repeat constructor.
Defined.

Lemma toResponse_deterministic_witness :
  ∃ r1 r2 text,
    (toResponse 2%positive store_bad_field).1 = Ok r1
    ∧ (toResponse 2%positive (toResponse 2%positive store_bad_field).2).1 = Ok r2
    ∧ response_text (toResponse 2%positive store_bad_field).2 r1 = Some text
    ∧ response_text
        (toResponse 2%positive (toResponse 2%positive store_bad_field).2).2 r2
      = Some text.
Proof.
  assert (Hthis : store_bad_field !! 2%positive = Some (CError bad_field))
    by reflexivity.
  destruct (toResponse_deterministic store_bad_field store_bad_field 2%positive _
              store_bad_field_closed Hthis) as [Hsub _]; [done|].
  destruct (toResponse_deterministic store_bad_field
              (toResponse 2%positive store_bad_field).2 2%positive _
              store_bad_field_closed Hthis Hsub)
    as [_ [(x & Hthrow & _)|(r1 & r2 & text & H1 & H2 & T1 & T2 & _)]].
  - apply (f_equal fst) in Hthrow. vm_compute in Hthrow. discriminate.
  - exists r1, r2, text. split_and!; assumption.
Defined.

Lemma accepted_shape_valid (h : heap) (v : value) : accepted h v ↔ shape_valid h v.
Proof.
  split.
  - intros (out & h' & Hrun). rewrite safeParse_run in Hrun.
    destruct (ErrorSchema [] v h) as [[[issues [v'|]]| | |] h''] eqn:Hs; try done.
    by eapply ErrorSchema_accepted_shape.
  - intros (l & c & -> & Hl & Hc & Hcode & Hmsg & Hdet).
    destruct (ErrorSchema_accepts h l c Hl Hc Hcode Hmsg Hdet) as (d & h3 & Hrun & _).
    unfold accepted. rewrite safeParse_run, Hrun. by eexists _, _.
Qed.

(** C2.  [ErrorSchema] accepts a value if and only if it is an object (not
    null, not a primitive, not an array) whose [code] is the string of one
    of the members of [BaseErrorCode], whose [message] is a string and whose
    [details], when present, is a mapping; the two [TIMEOUT] objects of the
    specification are accepted. *)
Theorem safeParse_accepts_iff :
  (∀ h v, accepted h v ↔ shape_valid h v)
  ∧ length BaseErrorCode_members = 11
  ∧ (∀ cd, cd ∈ BaseErrorCode_members)
  ∧ accepted store_timeout (VRef 1%positive)
  ∧ accepted store_timeout_details (VRef 2%positive).
Proof.
  split_and!.
  - apply accepted_shape_valid.
  - done.
  - intros []; unfold BaseErrorCode_members; set_solver.
  - unfold accepted. vm_compute. by eexists _, _.
  - unfold accepted. vm_compute. by eexists _, _.
Qed.

Lemma safeParse_accepts_iff_witness :
  accepted store_timeout_details (VRef 2%positive)
  ∧ ¬ accepted store_nope (VRef 1%positive).
Proof.
  destruct safeParse_accepts_iff as (Hiff & _).
  split.
  - apply Hiff.
    exists 2%positive, (CObject [("code", VString "TIMEOUT");
                                 ("message", VString "deadline exceeded");
                                 ("details", VRef 1%positive)]).
    split_and!; [reflexivity|reflexivity|by intros elems| | |].
    + exists TIMEOUT. reflexivity.
    + exists "deadline exceeded". reflexivity.
    + right. exists 1%positive, (CObject [("retryAfterMs", VNumber (Finite 500))]).
      split_and!; [reflexivity|reflexivity|by intros elems].
  - intros (l & c & Hv & Hl & _ & [cd Hcode] & _)%Hiff.
    injection Hv as <-. vm_compute in Hl. injection Hl as <-.
    by destruct cd.
Defined.

(** C10.  An object of the valid shape is accepted whatever other fields it
    carries, and the parsed result is a new object holding only [code],
    [message] and, when the input has the key, [details] (a copy of the
    mapping); the input is left as it was. *)
Theorem safeParse_strips (h : heap) (l : loc) (c : cell) :
  h !! l = Some c →
  shape_valid h (VRef l) →
  ∃ out d h',
    safeParse ErrorSchema (VRef l) h = (Ok (SafeParseSuccess (VRef out)), h')
    ∧ h !! out = None
    ∧ h' !! out = Some (CObject (stripped c d))
    ∧ (stripped c d).*1 ⊆ ["code"; "message"; "details"]
    ∧ h' !! l = Some c
    ∧ (get_prop c "details" = VUndefined → d = VUndefined)
    ∧ (∀ l' c', get_prop c "details" = VRef l' → h !! l' = Some c' →
         ∃ copy, d = VRef copy ∧ h !! copy = None
                 ∧ h' !! copy = Some (CObject (record_copy c'))).
Proof.
  intros Hl (l0 & c0 & [= <-] & Hl0 & Hc & Hcode & Hmsg & Hdet).
  assert (c0 = c) as -> by congruence.
  destruct (ErrorSchema_accepts h l c Hl Hc Hcode Hmsg Hdet)
    as (d & h3 & Hrun & Hcases).
  exists (fresh (dom h3)), d, (<[fresh (dom h3) := CObject (stripped c d)]> h3).
  rewrite safeParse_run, Hrun. cbn [fst snd].
  assert (Hsub : h ⊆ h3).
  { destruct Hcases as [(_ & _ & ->)|(l' & c' & _ & _ & _ & ->)];
      [done|apply alloc_subseteq]. }
  assert (Hfresh3 : h3 !! fresh (dom h3) = None) by apply fresh_lookup.
  split_and!.
  - done.
  - destruct (h !! fresh (dom h3)) as [c'|] eqn:Hf; [|done].
    by rewrite (lookup_weaken _ _ _ _ Hf Hsub) in Hfresh3.
  - apply lookup_insert_eq.
  - unfold stripped. destruct (has_prop c "details");
      cbn [fmap list_fmap app fst]; intros k Hk;
      rewrite ?elem_of_cons, ?elem_of_nil in Hk; rewrite !elem_of_cons; tauto.
  - eapply lookup_weaken; [|apply alloc_subseteq]. by eapply lookup_weaken.
  - intros Hd. destruct Hcases as [(_ & -> & _)|(l' & c' & Hd' & _)]; [done|].
    congruence.
  - intros l' c' Hd Hl'.
    destruct Hcases as [(Hd' & _)|(l'' & c'' & Hd' & Hl'' & -> & ->)]; [congruence|].
    assert (l'' = l') as -> by congruence. assert (c'' = c') as -> by congruence.
    exists (fresh (dom h)). split_and!; [done|auto with store|].
    eapply lookup_weaken; [apply lookup_insert_eq|auto with store].
Qed.

Lemma safeParse_strips_witness :
  ∃ out h',
    safeParse ErrorSchema (VRef 1%positive) store_extra
    = (Ok (SafeParseSuccess (VRef out)), h')
    ∧ h' !! out = Some (CObject [("code", VString "TIMEOUT");
                                 ("message", VString "deadline exceeded")]).
Proof.
  destruct (safeParse_strips store_extra 1%positive
              (CObject [("code", VString "TIMEOUT"); ("traceId", VString "abc");
                        ("message", VString "deadline exceeded")]))
    as (out & d & h' & Hrun & _ & Hout & _).
  - reflexivity.
  - exists 1%positive, (CObject [("code", VString "TIMEOUT"); ("traceId", VString "abc");
                                  ("message", VString "deadline exceeded")]).
    split_and!; [reflexivity|reflexivity|by intros elems| | |].
    + exists TIMEOUT. reflexivity.
    + exists "deadline exceeded". reflexivity.
    + left. reflexivity.
  - exists out, h'. split; [exact Hrun|exact Hout].
Defined.

(** C4.  For every [McpError] instance whose [details] is absent or a plain
    object, the object formed from its fields [{code, message, details}] is
    accepted by [ErrorSchema]; so is the instance itself. *)
Theorem McpError_fields_accepted (h : heap) (this : loc) (e : McpError) :
  h !! this = Some (CError e) →
  details_typed h (details e) →
  (∃ obj h1,
     alloc (CObject [("code", VString (code_value (code e)));
                     ("message", VString (message e));
                     ("details", details e)]) h = (Ok obj, h1)
     ∧ accepted h1 (VRef obj))
  ∧ accepted h (VRef this).
Proof.
  intros Hthis Htyped. split.
  - eexists _, _. split; [done|].
    set (c := CObject _). set (obj := fresh (dom h)).
    assert (Hsub : h ⊆ <[obj := c]> h) by apply alloc_subseteq.
    apply accepted_shape_valid. exists obj, c.
    split_and!; [done|apply lookup_insert_eq|by intros elems| | |].
    + by exists (code e).
    + by exists (message e).
    + change (get_prop c "details") with (details e).
      destruct Htyped as [->|(l & props & -> & Hl)]; [by left|right].
      exists l, (CObject props). split_and!; [done| |by intros elems].
      by eapply lookup_weaken.
  - apply accepted_shape_valid. exists this, (CError e).
    split_and!; [done|done|by intros elems| | |].
    + by exists (code e).
    + by exists (message e).
    + change (get_prop (CError e) "details") with (details e).
      destruct Htyped as [->|(l & props & -> & Hl)]; [by left|right].
      exists l, (CObject props). split_and!; [done|done|by intros elems].
Qed.

Lemma McpError_fields_accepted_witness :
  ∃ obj h1,
    alloc (CObject [("code", VString "VALIDATION_ERROR");
                    ("message", VString "bad field");
                    ("details", VRef 1%positive)]) store_bad_field = (Ok obj, h1)
    ∧ accepted h1 (VRef obj).
Proof.
  destruct (McpError_fields_accepted store_bad_field 2%positive bad_field)
    as [Hobj _].
  - reflexivity.
  - right. exists 1%positive, [("field", VString "name")]. split; reflexivity.
  - exact Hobj.
Defined.

(** C5.  On a closed store, for an object [c]: a [code] that is a string
    outside the registry is reported by an issue on the field [code]; a
    missing [message] is reported by an issue on the field [message],
    whatever [code] is; and an object that is not of the valid shape is
    rejected as a whole, with at least one issue, each on one of the
    declared fields. *)
Theorem safeParse_reports_field (h : heap) (l : loc) (c : cell) :
  closed h →
  h !! l = Some c →
  is_mapping c →
  (∀ s, get_prop c "code" = VString s → (∀ cd, s ≠ code_value cd) →
     ∃ rest h',
       safeParse ErrorSchema (VRef l) h
       = (Ok (SafeParseError
                (invalid_enum_value ["code"] (VString s) nativeEnumValues :: rest)), h'))
  ∧ (get_prop c "message" = VUndefined →
     ∃ issues h',
       safeParse ErrorSchema (VRef l) h = (Ok (SafeParseError issues), h')
       ∧ invalid_type ["message"] "string" zpt_undefined ∈ issues)
  ∧ (¬ shape_valid h (VRef l) →
     ∃ issues h',
       safeParse ErrorSchema (VRef l) h = (Ok (SafeParseError issues), h')
       ∧ issues ≠ []
       ∧ Forall (λ i, issue_path i ∈ field_paths) issues).
Proof.
  intros Hclosed Hl Hc.
  destruct (getParsedType_allocated h (get_prop c "code")) as [t1 H1];
    [by eapply get_prop_allocated|].
  destruct (getParsedType_allocated h (get_prop c "message")) as [t2 H2];
    [by eapply get_prop_allocated|].
  destruct (getParsedType_allocated h (get_prop c "details")) as [t3 H3];
    [by eapply get_prop_allocated|].
  set (r1 := enum_verdict ["code"] (get_prop c "code") t1).
  set (r2 := string_verdict ["message"] (get_prop c "message") t2).
  assert (Hdet : ∃ r3 h3,
    details_run ["details"] (get_prop c "details") h = (Ok r3, h3)
    ∧ (r3.2 = INVALID → ∃ i, r3.1 = [i] ∧ issue_path i = ["details"])
    ∧ (r3.2 ≠ INVALID → r3.1 = [])).
  { unfold details_run. rewrite H3.
    destruct (decide (t3 = zpt_object)) as [->|Ho].
    - apply getParsedType_object in H3 as (l' & c' & -> & Hl' & _).
      cbn [deref]. rewrite Hl'. by eexists _, _.
    - destruct t3; try done; eexists _, _; (split; [done|]); cbn [fst snd];
        split; try done; intros _; by eexists. }
  destruct Hdet as (r3 & h3 & Hrun3 & Hinv3 & Hval3).
  assert (Hinv1 : r1.2 = INVALID → ∃ i, r1.1 = [i] ∧ issue_path i = ["code"]).
  { unfold r1, enum_verdict. destruct (_ && _); [by eexists|].
    destruct (negb _); [by eexists|done]. }
  assert (Hval1 : r1.2 ≠ INVALID → r1.1 = []).
  { unfold r1, enum_verdict. destruct (_ && _); [done|]. by destruct (negb _). }
  assert (Hinv2 : r2.2 = INVALID → ∃ i, r2.1 = [i] ∧ issue_path i = ["message"]).
  { unfold r2, string_verdict. case_bool_decide; [done|by eexists]. }
  assert (Hval2 : r2.2 ≠ INVALID → r2.1 = []).
  { unfold r2, string_verdict. by case_bool_decide. }
  assert (Hsafe : ∀ issues h',
    ErrorSchema [] (VRef l) h = (Ok (issues, INVALID), h') →
    safeParse ErrorSchema (VRef l) h = (Ok (SafeParseError issues), h')).
  { intros issues h' Hrun. by rewrite safeParse_run, Hrun. }
  pose proof (ErrorSchema_run h l c Hl Hc) as Hrun.
  rewrite H1, H2, Hrun3 in Hrun. cbv zeta in Hrun. fold r1 r2 in Hrun.
  split_and!.
  - intros s Hcode Hnot.
    assert (Hr1 : r1 = ([invalid_enum_value ["code"] (VString s) nativeEnumValues],
                        INVALID)).
    { unfold r1, enum_verdict. rewrite Hcode in H1 |- *. cbn in H1.
      injection H1 as <-. cbn [enum_member].
      rewrite (bool_decide_eq_false_2 (s ∈ nativeEnumValues)); [done|].
      intros [cd ->]%registry_member. by destruct (Hnot cd). }
    rewrite Hr1 in Hrun. cbn [fst snd merge_pairs pair_value] in Hrun.
    eexists _, _. by apply Hsafe.
  - intros Hmsg.
    assert (Hr2 : r2 = ([invalid_type ["message"] "string" zpt_undefined], INVALID)).
    { unfold r2, string_verdict. rewrite Hmsg in H2 |- *. cbn in H2.
      by injection H2 as <-. }
    rewrite (proj2 (merge_three_invalid _ _ _ _ _ _)) in Hrun
      by (right; left; by rewrite Hr2).
    eexists _, _. split; [by apply Hsafe|].
    rewrite Hr2. cbn [fst]. apply elem_of_app. right. by left.
  - intros Hshape.
    destruct (merge_pairs _ _) as [final|] eqn:Hm.
    { destruct Hshape. eapply ErrorSchema_accepted_shape. exact Hrun. }
    apply merge_three_invalid in Hm.
    eexists _, _. split; [by apply Hsafe|]. split.
    + destruct Hm as [Hm|[Hm|Hm]].
      * destruct (Hinv1 Hm) as (i & -> & _). done.
      * destruct (Hinv2 Hm) as (i & -> & _). by destruct (r1.1).
      * destruct (Hinv3 Hm) as (i & -> & _). by destruct (r1.1), (r2.1).
    + assert (Hp : ∀ (r : list ZodIssue * ParseReturn) p,
        p ∈ field_paths →
        (r.2 = INVALID → ∃ i, r.1 = [i] ∧ issue_path i = p) →
        (r.2 ≠ INVALID → r.1 = []) →
        Forall (λ i, issue_path i ∈ field_paths) r.1).
      { intros [iss [v|]] p Hp Hi Hv; cbn [fst snd] in *.
        - rewrite Hv by done. constructor.
        - destruct Hi as (i & -> & Hi); [done|].
          constructor; [by rewrite Hi|constructor]. }
      rewrite !Forall_app. split_and!.
      * eapply (Hp r1); [|done..]. by left.
      * eapply (Hp r2); [|done..]. right. by left.
      * eapply (Hp r3); [|done..]. right. right. by left.
Qed.

Lemma safeParse_reports_field_witness :
  (∃ rest h',
     safeParse ErrorSchema (VRef 1%positive) store_nope
     = (Ok (SafeParseError
              (invalid_enum_value ["code"] (VString "NOPE") nativeEnumValues :: rest)), h'))
  ∧ (∃ issues h',
       safeParse ErrorSchema (VRef 1%positive) store_no_message
       = (Ok (SafeParseError issues), h')
       ∧ invalid_type ["message"] "string" zpt_undefined ∈ issues).
Proof.
  assert (Hclosed : ∀ props, Forall (allocated ∅) props.*2 →
            closed {[ 1%positive := CObject props ]}).
  { intros props Hall l c [_ <-]%lookup_singleton_Some. cbn [cell_values].
    eapply Forall_impl; [exact Hall|].
    intros [| | | | | |l']; try done. intros [c Hl']. by rewrite lookup_empty in Hl'. }
  split.
  - destruct (safeParse_reports_field store_nope 1%positive
                (CObject [("code", VString "NOPE"); ("message", VString "m")]))
      as (Hcode & _).
    + apply Hclosed. by repeat constructor.
    + reflexivity.
    + by intros elems.
    + apply (Hcode "NOPE"); [reflexivity|]. by intros [].
  - destruct (safeParse_reports_field store_no_message 1%positive
                (CObject [("code", VString "TIMEOUT")]))
      as (_ & Hmsg & _).
    + apply Hclosed. by repeat constructor.
    + reflexivity.
    + by intros elems.
    + apply Hmsg. reflexivity.
Defined.

(** * Further properties of the module *)

(** ** The registry *)

Lemma code_value_inj (c1 c2 : BaseErrorCode) :
  code_value c1 = code_value c2 → c1 = c2.
Proof. destruct c1, c2; intros H; by try discriminate H. Qed.

(** X1.  The strings of the eleven members are pairwise distinct, so a
    string of the registry names exactly one member: the test
    [nativeEnumValues.indexOf] of the schema decodes a code uniquely. *)
Theorem registry_decodes (s : string) :
  (s ∈ nativeEnumValues ↔ ∃ c, code_value c = s ∧ ∀ c', code_value c' = s → c' = c)
  ∧ NoDup nativeEnumValues.
Proof.
  split.
  - rewrite registry_member. split.
    + intros [c ->]. exists c. split; [done|]. intros c'. apply code_value_inj.
    + intros (c & <- & _). by exists c.
  - apply (bool_decide_unpack _). by vm_compute.
Qed.

(** ** The rendered text *)

Lemma append_nil_r (s : string) : s +:+ "" = s.
Proof.
  induction s as [|a s IH]; [done|].
  change (String a (s +:+ "") = String a s). by rewrite IH.
Qed.



(** ** The outcome of [toResponse] *)

(** X3.  On a closed store, [toResponse] on an instance with a typed
    [details] returns normally exactly when [details] is serializable;
    otherwise it throws the TypeError of [JSON.stringify], before anything
    is allocated. *)
Theorem toResponse_throws_iff (h : heap) (this : loc) (e : McpError) :
  closed h →
  h !! this = Some (CError e) →
  details_typed h (details e) →
  ((∃ r h', toResponse this h = (Ok r, h')) ↔ serializable h (details e))
  ∧ (¬ serializable h (details e) → ∃ x, toResponse this h = (Throw x, h)).
Proof.
  intros Hclosed Hthis Htyped.
  assert (Hok : (∃ r h', toResponse this h = (Ok r, h')) ↔ serializable h (details e)).
  { split.
    - intros (r & h' & Hrun). by eapply toResponse_Ok_serializable.
    - intros [n [t Ht]]. eexists _, _. by eapply toResponse_tree. }
  split; [done|]. intros Hnot.
  assert (Hdef : definite (details_text h (details e))).
  { apply details_text_definite; [done|].
    pose proof (Hclosed this _ Hthis) as Hall. cbn [cell_values] in Hall.
    by inversion Hall. }
  pose proof (toResponse_run this h e Hthis) as Hrun.
  destruct (details_text h (details e)) as [s|x| |]; try done.
  - destruct Hnot. apply Hok. by eexists _, _.
  - by exists x.
Qed.

Lemma store_bigint_error_closed : closed store_bigint_error.
Proof.
  intros l c Hl. unfold store_bigint_error, store_bigint in Hl.
  apply lookup_insert_Some in Hl as [[_ <-]|[_ Hl]].
  - repeat constructor. by eexists.
  - apply lookup_singleton_Some in Hl as [_ <-]. by repeat constructor.
Defined.

Lemma toResponse_throws_iff_witness :
  ∃ x, toResponse 2%positive store_bigint_error = (Throw x, store_bigint_error).
Proof.
  destruct (toResponse_throws_iff store_bigint_error 2%positive bad_field)
    as [_ Hthrow].
  - exact store_bigint_error_closed.
  - reflexivity.
  - right. exists 1%positive, [("n", VBigInt 1)]. split; reflexivity.
  - apply Hthrow. intros [n [t Ht]]. destruct n as [|[|n]]; vm_compute in Ht; discriminate.
Defined.

(** X4.  A response is made of three new objects: the response, its
    [content] array and the content item.  None of them existed before the
    call, they are pairwise distinct, and the store after the call is the
    store before it with these three cells added; the response holds no
    reference to the instance or to its [details]. *)
Theorem toResponse_fresh (h : heap) (this r : loc) (h' : heap) :
  toResponse this h = (Ok r, h') →
  ∃ arr item text,
    h !! r = None ∧ h !! arr = None ∧ h !! item = None
    ∧ r ≠ arr ∧ r ≠ item ∧ arr ≠ item
    ∧ h' = <[r := response_cell arr]>
             (<[arr := CArray [VRef item]]> (<[item := content_cell text]> h)).
Proof.
  destruct (h !! this) as [[props|elems|e]|] eqn:Hthis;
    try (rewrite toResponse_not_error by congruence; done).
  rewrite (toResponse_run this h e Hthis).
  destruct (details_text h (details e)) as [s| | |]; try done.
  unfold response_store. cbv zeta. cbn [fst snd].
  set (text := header e +:+ s).
  set (l1 := fresh (dom h)). set (h1 := <[l1 := content_cell text]> h).
  set (l2 := fresh (dom h1)). set (h2 := <[l2 := CArray [VRef l1]]> h1).
  set (l3 := fresh (dom h2)).
  intros [= <- <-].
  assert (F1 : h !! l1 = None) by apply fresh_lookup.
  assert (F2 : h1 !! l2 = None) by apply fresh_lookup.
  assert (F3 : h2 !! l3 = None) by apply fresh_lookup.
  assert (N21 : l2 ≠ l1).
  { intros Heq. rewrite Heq in F2. unfold h1 in F2. by rewrite lookup_insert_eq in F2. }
  assert (N32 : l3 ≠ l2).
  { intros Heq. rewrite Heq in F3. unfold h2 in F3. by rewrite lookup_insert_eq in F3. }
  assert (N31 : l3 ≠ l1).
  { intros Heq. rewrite Heq in F3. unfold h2, h1 in F3.
    by rewrite lookup_insert_ne, lookup_insert_eq in F3. }
  exists l2, l1, text. split_and!; try done.
  - unfold h2, h1 in F3. by rewrite !lookup_insert_ne in F3.
  - unfold h1 in F2. by rewrite lookup_insert_ne in F2.
Qed.

Lemma toResponse_fresh_witness :
  ∃ r arr item h',
    toResponse 2%positive store_bad_field = (Ok r, h')
    ∧ store_bad_field !! r = None ∧ store_bad_field !! arr = None
    ∧ store_bad_field !! item = None
    ∧ h' !! r = Some (response_cell arr).
Proof.
  destruct (toResponse 2%positive store_bad_field) as [o h'] eqn:Hrun.
  assert (∃ r, o = Ok r) as [r ->].
  { apply (f_equal fst) in Hrun. vm_compute in Hrun. subst o. by eexists. }
  destruct (toResponse_fresh store_bad_field 2%positive r h' Hrun)
    as (arr & item & text & Hr & Harr & Hitem & _ & _ & _ & Hh').
  exists r, arr, item, h'. split_and!; try done.
  rewrite Hh'. apply lookup_insert_eq.
Defined.

(** ** What the text shows of [details] *)

Lemma rendered_text_tree (h : heap) (c : BaseErrorCode) (msg : string) (d : value)
    (n : nat) (t : json) :
  details_typed h d →
  tree_of enumerable_props n h d = Some t →
  rendered_text c msg d h
  = Some (header (mkMcpError c msg d "McpError") +:+ details_block t).
Proof.
  intros Htyped Ht. unfold rendered_text, construct_and_render, M_bind.
  rewrite new_McpError_run.
  set (this := fresh (dom h)). set (e := mkMcpError c msg d "McpError").
  set (h1 := <[this := CError e]> h).
  assert (Hsub : h ⊆ h1) by apply alloc_subseteq.
  rewrite (toResponse_tree h1 this e n t).
  - apply response_store_text.
  - apply lookup_insert_eq.
  - destruct Htyped as [->|(l & props & -> & Hl)]; [by left|right].
    exists l, props. split; [done|]. by eapply lookup_weaken.
  - by eapply tree_of_weaken.
Qed.

(** X5.  The constructor keeps the reference to [details], not a copy, and
    [toResponse] reads the object when it is called: after an assignment to
    the [details] object the text shows its new content, and differs from
    the earlier text whenever the two contents print differently. *)
Theorem details_read_at_call_time (h : heap) (this l : loc) (e : McpError)
    (props props' : list (string * value)) (n : nat) (t t' : json) :
  h !! this = Some (CError e) →
  details e = VRef l →
  h !! l = Some (CObject props) →
  tree_of enumerable_props n h (VRef l) = Some t →
  tree_of enumerable_props n (<[l := CObject props']> h) (VRef l) = Some t' →
  ∃ r h1 r' h2,
    toResponse this h = (Ok r, h1)
    ∧ toResponse this (<[l := CObject props']> h) = (Ok r', h2)
    ∧ response_text h1 r = Some (header e +:+ details_block t)
    ∧ response_text h2 r' = Some (header e +:+ details_block t')
    ∧ (pretty_print 0 t ≠ pretty_print 0 t' → response_text h1 r ≠ response_text h2 r').
Proof.
  intros Hthis Hd Hl Ht Ht'.
  assert (Hne : l ≠ this) by (intros ->; congruence).
  rewrite (toResponse_tree h this e n t); [|done| |by rewrite Hd].
  2:{ right. exists l, props. by rewrite Hd. }
  rewrite (toResponse_tree (<[l := CObject props']> h) this e n t').
  2:{ by rewrite lookup_insert_ne. }
  2:{ right. exists l, props'. rewrite Hd. split; [done|apply lookup_insert_eq]. }
  2:{ by rewrite Hd. }
  eexists _, _, _, _. split_and!; [done|done|apply response_store_text..|].
  rewrite !response_store_text. intros Hdiff [= Heq].
  apply String.app_inj in Heq. unfold details_block in Heq.
  destruct n as [|n]; [done|]. rewrite tree_of_ref in Ht, Ht'.
  rewrite Hl in Ht. rewrite lookup_insert_eq in Ht'.
  apply fmap_Some in Ht as (ts & _ & ->). apply fmap_Some in Ht' as (ts' & _ & ->).
  cbn [pretty_print] in *.
  apply String.app_inj in Heq. apply String.app_inj in Heq. congruence.
Qed.

Lemma details_read_at_call_time_witness :
  ∃ r h1 r' h2,
    toResponse 2%positive store_bad_field = (Ok r, h1)
    ∧ toResponse 2%positive (<[1%positive := CObject props_title]> store_bad_field)
      = (Ok r', h2)
    ∧ response_text h1 r ≠ response_text h2 r'.
Proof.
  destruct (details_read_at_call_time store_bad_field 2%positive 1%positive bad_field
              [("field", VString "name")] props_title 1
              (JObject [("field", JString "name")])
              (JObject [("field", JString "title")]))
    as (r & h1 & r' & h2 & H1 & H2 & _ & _ & Hdiff); try reflexivity.
  exists r, h1, r', h2. split_and!; [done..|]. apply Hdiff. by vm_compute.
Defined.

(** X6.  The message is inserted as it is, so the text does not determine
    the fields: an error whose message ends with a line [Details: {}] and
    that has no details renders exactly as the error with the shorter
    message and an empty [details]. *)
Theorem rendering_ambiguous (h : heap) (c : BaseErrorCode) (m : string) (l : loc) :
  h !! l = Some (CObject []) →
  ∃ text,
    rendered_text c (m +:+ LF +:+ "Details: {}") VUndefined h = Some text
    ∧ rendered_text c m (VRef l) h = Some text.
Proof.
  intros Hl. eexists. split.
  - apply (rendered_text_tree h c _ VUndefined 0 JUndefined); [by left|done].
  - rewrite (rendered_text_tree h c m (VRef l) 1 (JObject [])).
    + f_equal. unfold header, details_block. cbn [code message pretty_print].
      rewrite append_nil_r, !append_assoc. done.
    + right. by exists l, [].
    + by rewrite tree_of_ref, Hl.
Qed.

Lemma rendering_ambiguous_witness :
  ∃ text,
    rendered_text NOT_FOUND ("missing widget" +:+ LF +:+ "Details: {}") VUndefined
      store_empty = Some text
    ∧ rendered_text NOT_FOUND "missing widget" (VRef 1%positive) store_empty = Some text.
Proof.
  apply (rendering_ambiguous store_empty NOT_FOUND "missing widget" 1%positive).
  reflexivity.
Defined.

(** X7.  An [McpError] placed in the [details] of another error is printed
    with its [code] and [name] only: its [message] is not an enumerable
    property, and its absent [details] is left out. *)
Theorem nested_error_rendering (h : heap) (inner l : loc) (e1 : McpError)
    (c : BaseErrorCode) (m : string) :
  h !! inner = Some (CError e1) →
  details e1 = VUndefined →
  h !! l = Some (CObject [("cause", VRef inner)]) →
  rendered_text c m (VRef l) h
  = Some (header (mkMcpError c m (VRef l) "McpError") +:+ LF +:+ "Details: {" +:+ LF
          +:+ "  " +:+ QuoteJSONString "cause" +:+ ": {" +:+ LF
          +:+ "    " +:+ QuoteJSONString "code" +:+ ": "
          +:+ QuoteJSONString (code_value (code e1)) +:+ "," +:+ LF
          +:+ "    " +:+ QuoteJSONString "name" +:+ ": "
          +:+ QuoteJSONString (name e1) +:+ LF
          +:+ "  }" +:+ LF +:+ "}").
Proof.
  intros Hinner Hd1 Hl.
  rewrite (rendered_text_tree h c m (VRef l) 2
             (JObject [("cause", JObject [("code", JString (code_value (code e1)));
                                          ("details", JUndefined);
                                          ("name", JString (name e1))])])).
  - do 2 f_equal. unfold details_block.
    cbn [pretty_print omap list_omap fmap list_fmap fst snd pretty_member mbind
         option_bind]. unfold block. cbn [String.concat].
    unfold QuoteJSONString. rewrite !append_assoc. reflexivity.
  - right. by eexists _, _.
  - rewrite tree_of_ref, Hl. cbn [enumerable_props].
    change (own_props [("cause", VRef inner)]) with [("cause", VRef inner)].
    cbn [mapM]. unfold tree_member at 1. cbn [fst snd].
    rewrite tree_of_ref, Hinner. cbn [enumerable_props error_props mapM].
    unfold tree_member. cbn [fst snd]. rewrite Hd1. done.
Qed.

Lemma nested_error_rendering_witness :
  rendered_text INTERNAL_ERROR "outer" (VRef 2%positive) store_cause
  = Some ("Error [INTERNAL_ERROR]: outer" +:+ LF +:+ "Details: {" +:+ LF
          +:+ "  " +:+ DQUOTE +:+ "cause" +:+ DQUOTE +:+ ": {" +:+ LF
          +:+ "    " +:+ DQUOTE +:+ "code" +:+ DQUOTE +:+ ": "
          +:+ DQUOTE +:+ "NOT_FOUND" +:+ DQUOTE +:+ "," +:+ LF
          +:+ "    " +:+ DQUOTE +:+ "name" +:+ DQUOTE +:+ ": "
          +:+ DQUOTE +:+ "McpError" +:+ DQUOTE +:+ LF
          +:+ "  }" +:+ LF +:+ "}").
Proof.
  apply (nested_error_rendering store_cause 1%positive 2%positive
           (mkMcpError NOT_FOUND "inner message" VUndefined "McpError")
           INTERNAL_ERROR "outer"); reflexivity.
Defined.

(** ** Properties with an undefined value *)

Lemma insert_by_index_head (p : N * (string * value)) (l : list (N * (string * value))) :
  Forall (index_le p) l → insert_by_index p l = p :: l.
Proof.
  destruct 1 as [|q l Hq _]; [done|]. cbn [insert_by_index].
  by rewrite (proj2 (N.leb_le _ _) Hq).
Qed.

Lemma insert_by_index_Forall (P : N * (string * value) → Prop)
    (p : N * (string * value)) (l : list (N * (string * value))) :
  P p → Forall P l → Forall P (insert_by_index p l).
Proof.
  intros Hp Hl. rewrite insert_by_index_perm. by constructor.
Qed.

Lemma insert_by_index_sorted (p : N * (string * value)) (l : list (N * (string * value))) :
  StronglySorted index_le l → StronglySorted index_le (insert_by_index p l).
Proof.
  induction 1 as [|q l Hl IH Hq]; [repeat constructor|].
  cbn [insert_by_index]. destruct (p.1 <=? q.1)%N eqn:Hle.
  - apply N.leb_le in Hle. constructor; [by constructor|].
    constructor; [done|]. eapply Forall_impl; [exact Hq|].
    intros r Hr. unfold index_le in *. lia.
  - apply N.leb_gt in Hle. constructor; [done|].
    apply insert_by_index_Forall; [|done]. unfold index_le. lia.
Qed.

Lemma sort_by_index_sorted (l : list (N * (string * value))) :
  StronglySorted index_le (foldr insert_by_index [] l).
Proof.
  induction l as [|p l IH]; [constructor|]. by apply insert_by_index_sorted.
Qed.

Section filter_sorted.
Context (P : N * (string * value) → Prop) `{!∀ p, Decision (P p)}.

Lemma filter_insert_by_index (p : N * (string * value))
    (l : list (N * (string * value))) :
  StronglySorted index_le l →
  filter P (insert_by_index p l)
  = if decide (P p) then insert_by_index p (filter P l) else filter P l.
Proof.
  induction 1 as [|q l Hl IH Hq].
  { cbn [insert_by_index]. rewrite filter_cons. by destruct (decide (P p)). }
  cbn [insert_by_index]. destruct (p.1 <=? q.1)%N eqn:Hle.
  - apply N.leb_le in Hle. rewrite filter_cons.
    destruct (decide (P p)); [|done].
    rewrite insert_by_index_head; [done|].
    apply Forall_forall. intros r [_ Hr]%list_elem_of_filter. revert r Hr.
    apply Forall_forall. constructor; [done|].
    eapply Forall_impl; [exact Hq|]. intros r Hr. unfold index_le in *. lia.
  - rewrite !filter_cons, IH.
    destruct (decide (P q)), (decide (P p)); try done.
    cbn [insert_by_index]. by rewrite Hle.
Qed.

Lemma filter_sort_by_index (l : list (N * (string * value))) :
  filter P (foldr insert_by_index [] l) = foldr insert_by_index [] (filter P l).
Proof.
  induction l as [|p l IH]; [done|]. cbn [foldr].
  rewrite filter_insert_by_index by apply sort_by_index_sorted.
  rewrite filter_cons. destruct (decide (P p)); [|done].
  cbn [foldr]. by rewrite IH.
Qed.
End filter_sorted.

(** Removing properties commutes with the enumeration order. *)
Lemma own_props_filter (P : string * value → Prop) `{!∀ kv, Decision (P kv)}
    (props : list (string * value)) :
  own_props (filter P props) = filter P (own_props props).
Proof.
  unfold own_props. rewrite filter_app. f_equal.
  - assert (Hix : omap indexed (filter P props)
                  = filter (λ p, P p.2) (omap indexed props)).
    { induction props as [|kv props IH]; [done|].
      rewrite filter_cons. cbn [omap list_omap]. unfold indexed at 2.
      destruct (decide (P kv)) as [Hp|Hp].
      - cbn [omap list_omap]. unfold indexed at 1.
        destruct (array_index kv.1); [|done].
        rewrite filter_cons. cbn [snd]. rewrite decide_True by done. by rewrite IH.
      - destruct (array_index kv.1); [|done].
        rewrite filter_cons. cbn [snd]. by rewrite decide_False. }
    rewrite Hix, <- filter_sort_by_index.
    generalize (foldr insert_by_index [] (omap indexed props)). intros L.
    induction L as [|p L IH]; [done|].
    rewrite filter_cons. cbn [fmap list_fmap]. rewrite filter_cons.
    destruct (decide (P p.2)); cbn [fmap list_fmap]; by rewrite IH.
  - rewrite !list_filter_filter. apply list_filter_iff. intros kv. tauto.
Qed.

#[global] Instance shown_dec (kv : string * value) : Decision (shown kv).
Proof. unfold shown. apply _. Defined.

Lemma tree_of_undefined (view : cell → list (string * value)) (n : nat) (h : heap) :
  tree_of view n h VUndefined = Some JUndefined.
Proof. by destruct n. Qed.

Lemma members_filter_shown (f : value → option json) (depth : nat)
    (props : list (string * value)) (kts : list (string * json)) :
  f VUndefined = Some JUndefined →
  mapM (tree_member f) props = Some kts →
  ∃ kts',
    mapM (tree_member f) (filter shown props) = Some kts'
    ∧ omap (λ kt, pretty_member kt.1 (pretty_print depth kt.2)) kts'
      = omap (λ kt, pretty_member kt.1 (pretty_print depth kt.2)) kts.
Proof.
  intros Hu Hm. apply mapM_Some in Hm.
  induction Hm as [|[k v] kt props kts Hkv _ (kts' & Hm' & Hpp)].
  { by exists []. }
  rewrite filter_cons. destruct (decide (shown (k, v))) as [Hs|Hs].
  - exists (kt :: kts'). split.
    + apply mapM_Some. constructor; [done|]. by apply mapM_Some.
    + cbn [omap list_omap]. by rewrite Hpp.
  - exists kts'. split; [done|].
    unfold shown in Hs. cbn [snd] in Hs. apply dec_stable in Hs. subst v.
    unfold tree_member in Hkv. cbn [fst snd] in Hkv. rewrite Hu in Hkv.
    injection Hkv as <-. cbn [omap list_omap fst snd pretty_print pretty_member].
    exact Hpp.
Qed.

(** X8.  A property whose value is undefined never shows in the text: an
    object and the object without its undefined-valued properties render
    the same. *)
Theorem undefined_properties_omitted (h : heap) (c : BaseErrorCode) (m : string)
    (l l' : loc) (props : list (string * value)) (n : nat) (t : json) :
  h !! l = Some (CObject props) →
  h !! l' = Some (CObject (filter shown props)) →
  tree_of enumerable_props n h (VRef l) = Some t →
  ∃ text,
    rendered_text c m (VRef l) h = Some text
    ∧ rendered_text c m (VRef l') h = Some text.
Proof.
  intros Hl Hl' Ht.
  destruct n as [|n]; [done|]. pose proof Ht as Ht0.
  rewrite tree_of_ref, Hl in Ht. apply fmap_Some in Ht as (kts & Hm & ->).
  cbn [enumerable_props] in Hm.
  destruct (members_filter_shown (tree_of enumerable_props n h) 1 _ _
              (tree_of_undefined _ _ _) Hm) as (kts' & Hm' & Hpp).
  rewrite <- own_props_filter in Hm'.
  eexists. split.
  - apply (rendered_text_tree h c m (VRef l) (S n) (JObject kts)); [|done].
    right. by exists l, props.
  - rewrite (rendered_text_tree h c m (VRef l') (S n) (JObject kts')).
    + unfold header, details_block. cbn [code message pretty_print]. by rewrite Hpp.
    + right. by eexists _, _.
    + rewrite tree_of_ref, Hl'. cbn [enumerable_props]. by rewrite Hm'.
Qed.

Lemma undefined_properties_omitted_witness :
  ∃ text,
    rendered_text CONFLICT "x" (VRef 1%positive) store_undefined = Some text
    ∧ rendered_text CONFLICT "x" (VRef 2%positive) store_undefined = Some text.
Proof.
  apply (undefined_properties_omitted store_undefined CONFLICT "x" 1%positive 2%positive
           [("a", VUndefined); ("b", VNumber (Finite 1))] 1
           (JObject [("a", JUndefined); ("b", JNumber (Finite 1))])); reflexivity.
Defined.

(** ** Escaping *)





(** ** Rejections of [ErrorSchema] *)

(** X10.  A value that is not an object (null, a primitive, an array) is
    rejected with a single issue at the root path, which names the kind of
    value received; nothing is allocated. *)
Theorem safeParse_rejects_non_object (h : heap) (v : value) :
  allocated h v →
  ¬ (∃ l c, v = VRef l ∧ h !! l = Some c ∧ is_mapping c) →
  ∃ t,
    getParsedType h v = Ok t ∧ t ≠ zpt_object
    ∧ safeParse ErrorSchema v h
      = (Ok (SafeParseError [invalid_type [] "object" t]), h).
Proof.
  intros Hv Hnot. destruct (getParsedType_allocated h v Hv) as [t Ht].
  assert (Hne : t ≠ zpt_object).
  { intros ->. by apply getParsedType_object in Ht. }
  exists t. split_and!; [done..|].
  by rewrite safeParse_run, (ErrorSchema_not_object h v t Ht Hne).
Qed.

Lemma safeParse_rejects_non_object_witness :
  safeParse ErrorSchema VNull ∅
  = (Ok (SafeParseError [invalid_type [] "object" zpt_null]), ∅)
  ∧ safeParse ErrorSchema (VRef 1%positive) store_array
    = (Ok (SafeParseError [invalid_type [] "object" zpt_array]), store_array).
Proof.
  split.
  - destruct (safeParse_rejects_non_object ∅ VNull) as (t & Ht & _ & Hrun).
    + exact I.
    + by intros (l & c & Hv & _).
    + injection Ht as <-. exact Hrun.
  - destruct (safeParse_rejects_non_object store_array (VRef 1%positive))
      as (t & Ht & _ & Hrun).
    + by eexists.
    + intros (l & c & Hv & Hl & Hc). injection Hv as <-.
      vm_compute in Hl. injection Hl as <-. by destruct (Hc [VNumber (Finite 1)]).
    + vm_compute in Ht. injection Ht as <-. exact Hrun.
Defined.

Lemma enum_verdict_spec (h : heap) (path : list string) (d : value) (t : ZodParsedType) :
  getParsedType h d = Ok t →
  enum_verdict path d t
  = if enum_member d then ([], OK d)
    else ([if bool_decide (t ≠ zpt_string) && bool_decide (t ≠ zpt_number)
           then invalid_type path (joinValues nativeEnumValues) t
           else invalid_enum_value path d nativeEnumValues], INVALID).
Proof.
  intros Ht. unfold enum_verdict.
  destruct (enum_member d) eqn:He.
  - apply enum_member_registry in He as [cd ->]. cbn in Ht. by injection Ht as <-.
  - by destruct (_ && _).
Qed.

Lemma string_verdict_spec (h : heap) (path : list string) (d : value) (t : ZodParsedType) :
  getParsedType h d = Ok t →
  string_verdict path d t
  = match d with
    | VString _ => ([], OK d)
    | _ => ([invalid_type path "string" t], INVALID)
    end.
Proof.
  intros Ht. unfold string_verdict. case_bool_decide as Hs.
  - subst t. by apply getParsedType_string in Ht as [s ->].
  - destruct d; try done. cbn in Ht. by injection Ht as <-.
Qed.

Lemma details_run_spec (h : heap) (c : cell) (t : ZodParsedType) :
  getParsedType h (get_prop c "details") = Ok t →
  ∃ r h3,
    details_run ["details"] (get_prop c "details") h = (Ok r, h3)
    ∧ h ⊆ h3
    ∧ (if details_ok h c then r.1 = [] ∧ r.2 ≠ INVALID
       else r = ([invalid_type ["details"] "object" t], INVALID) ∧ h3 = h).
Proof.
  intros Ht. unfold details_run, details_ok. rewrite Ht.
  destruct (get_prop c "details") as [| | |[]| | |l'] eqn:Hd; cbn in Ht;
    try (injection Ht as <-; by eexists _, _).
  destruct (h !! l') as [c'|] eqn:Hl'; [|done].
  destruct c' as [props|elems|e]; injection Ht as <-; cbn [deref]; rewrite ?Hl';
    eexists _, _; (split; [done|]); cbn [fst snd];
    try (split; [apply alloc_subseteq|done]); done.
Qed.

(** X11.  Validation is not fail-fast.  On an object, each of the three
    fields is checked whatever the others gave, and a rejection carries
    exactly one issue per failing field, in the order [code], [message],
    [details]; the object is accepted exactly when no field fails. *)
Theorem safeParse_issue_paths (h : heap) (l : loc) (c : cell) :
  closed h →
  h !! l = Some c →
  is_mapping c →
  ∃ res h',
    safeParse ErrorSchema (VRef l) h = (Ok res, h')
    ∧ match res with
      | SafeParseSuccess _ =>
          code_ok c = true ∧ message_ok c = true ∧ details_ok h c = true
      | SafeParseError issues =>
          issue_path <$> issues
          = failed (code_ok c) "code" ++ failed (message_ok c) "message"
            ++ failed (details_ok h c) "details"
          ∧ issues ≠ []
      end.
Proof.
  intros Hclosed Hl Hc.
  destruct (getParsedType_allocated h (get_prop c "code")) as [t1 H1];
    [by eapply get_prop_allocated|].
  destruct (getParsedType_allocated h (get_prop c "message")) as [t2 H2];
    [by eapply get_prop_allocated|].
  destruct (getParsedType_allocated h (get_prop c "details")) as [t3 H3];
    [by eapply get_prop_allocated|].
  destruct (details_run_spec h c t3 H3) as (r3 & h3 & Hrun3 & _ & Hr3).
  rewrite safeParse_run, (ErrorSchema_run h l c Hl Hc), H1, H2, Hrun3. cbv zeta.
  rewrite (enum_verdict_spec h _ _ _ H1), (string_verdict_spec h _ _ _ H2).
  unfold code_ok, message_ok.
  destruct (details_ok h c).
  - destruct Hr3 as [Hi Hv]. destruct r3 as [iss [v3|]]; [|done].
    cbn [fst snd] in Hi. subst iss.
    destruct (enum_member (get_prop c "code")), (get_prop c "message");
      cbn [fst snd]; try rewrite merge_three;
      try rewrite (proj2 (merge_three_invalid _ _ _ _ _ _)) by auto;
      eexists _, _; (split; [done|]); cbn [fst snd failed fmap list_fmap app];
      try done; (split; [|done]); by destruct (_ && _).
  - destruct Hr3 as [-> ->].
    destruct (enum_member (get_prop c "code")), (get_prop c "message");
      cbn [fst snd];
      rewrite (proj2 (merge_three_invalid _ _ _ _ _ _)) by auto;
      eexists _, _; (split; [done|]); cbn [fst snd failed fmap list_fmap app];
      (split; [|done]); try done; by destruct (_ && _).
Qed.

Lemma safeParse_issue_paths_witness :
  ∃ issues h',
    safeParse ErrorSchema (VRef 1%positive) store_three_failures
    = (Ok (SafeParseError issues), h')
    ∧ issue_path <$> issues = [["code"]; ["message"]; ["details"]].
Proof.
  destruct (safeParse_issue_paths store_three_failures 1%positive
              (CObject [("code", VNumber (Finite 3)); ("details", VNull)]))
    as (res & h' & Hrun & Hres).
  - intros l c Hl. unfold store_three_failures in Hl.
    apply lookup_singleton_Some in Hl as [_ <-]. by repeat constructor.
  - reflexivity.
  - by intros elems.
  - destruct res as [out|issues].
    + by destruct Hres as [Hcode _].
    + exists issues, h'. split; [exact Hrun|]. by destruct Hres as [-> _].
Defined.

(** ** Effects of [ErrorSchema] on the store *)

Lemma getParsedType_cases (h : heap) (d : value) :
  (∃ t, getParsedType h d = Ok t) ∨ getParsedType h d = Stuck.
Proof.
  destruct d as [| | |[]| | |l]; cbn; eauto.
  destruct (h !! l) as [[]|]; eauto.
Qed.

Lemma details_run_frame (h : heap) (path : list string) (d : value) :
  h ⊆ (details_run path d h).2
  ∧ ((∃ r, (details_run path d h).1 = Ok r) ∨ (details_run path d h).1 = Stuck).
Proof.
  unfold details_run.
  destruct (getParsedType_cases h d) as [[t ->]| ->]; [|by split; [|right]].
  destruct t; cbn [fst snd]; try (split; [done|left; by eexists]).
  destruct (deref h d); cbn [fst snd].
  - split; [apply alloc_subseteq|left; by eexists].
  - by split; [|right].
Qed.

Lemma ErrorSchema_frame (h : heap) (v : value) :
  h ⊆ (ErrorSchema [] v h).2
  ∧ ((∃ r, (ErrorSchema [] v h).1 = Ok r) ∨ (ErrorSchema [] v h).1 = Stuck).
Proof.
  destruct (getParsedType_cases h v) as [[t Ht]|Ht].
  - destruct (decide (t = zpt_object)) as [->|Hne].
    2:{ rewrite (ErrorSchema_not_object h v t Ht Hne). split; [done|left; by eexists]. }
    apply getParsedType_object in Ht as (l & c & -> & Hl & Hc).
    rewrite (ErrorSchema_run h l c Hl Hc).
    destruct (getParsedType_cases h (get_prop c "code")) as [[t1 ->]| ->];
      [|by split; [|right]].
    destruct (getParsedType_cases h (get_prop c "message")) as [[t2 ->]| ->];
      [|by split; [|right]].
    destruct (details_run_frame h ["details"] (get_prop c "details")) as [Hsub Hres].
    destruct (details_run ["details"] (get_prop c "details") h) as [o3 h3].
    cbn [fst snd] in *. destruct Hres as [[r3 ->]| ->]; [|by split; [|right]].
    cbv zeta. destruct (merge_pairs _ _); cbn [fst snd].
    + split; [|left; by eexists]. etrans; [exact Hsub|apply alloc_subseteq].
    + split; [done|left; by eexists].
  - destruct v as [| | |[]| | |l]; try done. cbn in Ht.
    destruct (h !! l) as [[]|] eqn:Hl; try done.
    rewrite (ErrorSchema_unallocated h l Hl). by split; [|right].
Qed.

(** X12.  [safeParse] has no effect on the objects it is given: every cell
    of the store is the same after the call, whether the value is accepted
    or rejected.  It never throws, and on a closed store it always returns
    a result. *)
Theorem safeParse_frame (h : heap) (v : value) :
  h ⊆ (safeParse ErrorSchema v h).2
  ∧ (∀ x, (safeParse ErrorSchema v h).1 ≠ Throw x)
  ∧ (closed h → allocated h v → ∃ res, (safeParse ErrorSchema v h).1 = Ok res).
Proof.
  rewrite safeParse_run.
  destruct (ErrorSchema_frame h v) as [Hsub Hres].
  destruct (ErrorSchema [] v h) as [o h'] eqn:Hrun. cbn [fst snd] in *.
  destruct Hres as [[r ->]| ->]; cbn [fst snd].
  - split_and!; [done|done|]. intros _ _. by eexists.
  - split_and!; [done|done|]. intros Hclosed Hv.
    destruct (getParsedType_allocated h v Hv) as [t Ht].
    destruct (decide (t = zpt_object)) as [->|Hne].
    2:{ by rewrite (ErrorSchema_not_object h v t Ht Hne) in Hrun. }
    apply getParsedType_object in Ht as (l & c & -> & Hl & Hc).
    rewrite (ErrorSchema_run h l c Hl Hc) in Hrun.
    destruct (getParsedType_allocated h (get_prop c "code")) as [t1 H1];
      [by eapply get_prop_allocated|].
    destruct (getParsedType_allocated h (get_prop c "message")) as [t2 H2];
      [by eapply get_prop_allocated|].
    destruct (getParsedType_allocated h (get_prop c "details")) as [t3 H3];
      [by eapply get_prop_allocated|].
    destruct (details_run_spec h c t3 H3) as (r3 & h3 & Hrun3 & _).
    rewrite H1, H2, Hrun3 in Hrun. cbv zeta in Hrun.
    by destruct (merge_pairs _ _).
Qed.

Lemma safeParse_frame_witness :
  (safeParse ErrorSchema (VRef 2%positive) store_timeout_details).2 !! 1%positive
  = Some (CObject [("retryAfterMs", VNumber (Finite 500))]).
Proof.
  destruct (safeParse_frame store_timeout_details (VRef 2%positive)) as [Hsub _].
  assert (H1 : store_timeout_details !! 1%positive
               = Some (CObject [("retryAfterMs", VNumber (Finite 500))]))
    by reflexivity.
  exact (lookup_weaken _ _ _ _ H1 Hsub).
Defined.

(** X13.  The responses of [toResponse] are not error objects: the schema
    rejects every one of them, reporting the missing [code] and the missing
    [message]. *)
Theorem response_rejected (h : heap) (this r : loc) (h' : heap) :
  toResponse this h = (Ok r, h') →
  safeParse ErrorSchema (VRef r) h'
  = (Ok (SafeParseError
           [invalid_type ["code"] (joinValues nativeEnumValues) zpt_undefined;
            invalid_type ["message"] "string" zpt_undefined]), h').
Proof.
  intros Hrun.
  assert (∃ arr, h' !! r = Some (response_cell arr)) as [arr Hr].
  { destruct (h !! this) as [[props|elems|e]|] eqn:Hthis;
      try (rewrite toResponse_not_error in Hrun by congruence; done).
    rewrite (toResponse_run this h e Hthis) in Hrun.
    destruct (details_text h (details e)) as [s| | |]; try done.
    injection Hrun as <- <-.
    destruct (response_store_lookup h (header e +:+ s)) as (l1 & l2 & H3 & _).
    by exists l2. }
  rewrite safeParse_run, (ErrorSchema_run h' r _ Hr) by (by intros elems).
  reflexivity.
Qed.

Lemma response_rejected_witness :
  ∃ r h' issues,
    toResponse 2%positive store_bad_field = (Ok r, h')
    ∧ safeParse ErrorSchema (VRef r) h' = (Ok (SafeParseError issues), h')
    ∧ issue_path <$> issues = [["code"]; ["message"]].
Proof.
  destruct (toResponse 2%positive store_bad_field) as [o h'] eqn:Hrun.
  assert (∃ r, o = Ok r) as [r ->].
  { apply (f_equal fst) in Hrun. vm_compute in Hrun. subst o. by eexists. }
  exists r, h', [invalid_type ["code"] (joinValues nativeEnumValues) zpt_undefined;
                 invalid_type ["message"] "string" zpt_undefined].
  split; [reflexivity|]. split.
  - apply (response_rejected store_bad_field 2%positive r h' Hrun).
  - reflexivity.
Defined.

(** ** Parsed results *)

Lemma stripped_get (c : cell) (d : value) :
  get_prop (CObject (stripped c d)) "code" = get_prop c "code"
  ∧ get_prop (CObject (stripped c d)) "message" = get_prop c "message"
  ∧ get_prop (CObject (stripped c d)) "details"
    = (if has_prop c "details" then d else VUndefined)
  ∧ has_prop (CObject (stripped c d)) "details" = has_prop c "details".
Proof. unfold stripped. by destruct (has_prop c "details"). Qed.

(** X14.  Parsing is idempotent: the object a successful [safeParse]
    returns is itself accepted, and parsing it again yields another new
    object with the same keys and the same [code] and [message]. *)
Theorem safeParse_idempotent (h : heap) (l : loc) (c : cell) :
  h !! l = Some c →
  shape_valid h (VRef l) →
  ∃ out h1 out2 h2 c1 c2,
    safeParse ErrorSchema (VRef l) h = (Ok (SafeParseSuccess (VRef out)), h1)
    ∧ safeParse ErrorSchema (VRef out) h1 = (Ok (SafeParseSuccess (VRef out2)), h2)
    ∧ h2 !! out = Some c1 ∧ h2 !! out2 = Some c2 ∧ out ≠ out2
    ∧ get_prop c2 "code" = get_prop c "code"
    ∧ get_prop c2 "message" = get_prop c "message"
    ∧ (all_props c2).*1 = (all_props c1).*1.
Proof.
  intros Hl (l0 & c0 & [= <-] & Hl0 & Hc & Hcode & Hmsg & Hdet).
  assert (c0 = c) as -> by congruence.
  destruct (ErrorSchema_accepts h l c Hl Hc Hcode Hmsg Hdet)
    as (d & h3 & Hrun & Hcases).
  set (out := fresh (dom h3)) in *. set (c1 := CObject (stripped c d)).
  set (h1 := <[out := c1]> h3) in *.
  destruct (stripped_get c d) as (G1 & G2 & G3 & G4). fold c1 in G1, G2, G3, G4.
  assert (Hout : h1 !! out = Some c1) by apply lookup_insert_eq.
  assert (Hsub31 : h3 ⊆ h1) by apply alloc_subseteq.
  assert (Hdet1 : get_prop c1 "details" = VUndefined
                  ∨ ∃ l' c', get_prop c1 "details" = VRef l' ∧ h1 !! l' = Some c'
                             ∧ is_mapping c').
  { rewrite G3.
    destruct Hcases as [(_ & -> & _)|(l' & c' & Hd & _ & -> & Hh3)].
    - left. by destruct (has_prop c "details").
    - right. rewrite (has_prop_get c "details") by (by rewrite Hd).
      exists (fresh (dom h)), (CObject (record_copy c')).
      split_and!; [done| |by intros elems].
      eapply lookup_weaken; [|exact Hsub31]. rewrite Hh3. apply lookup_insert_eq. }
  destruct (ErrorSchema_accepts h1 out c1 Hout) as (d2 & h4 & Hrun2 & Hcases2);
    [by intros elems|by rewrite G1|by rewrite G2|done|].
  set (out2 := fresh (dom h4)) in *. set (c2 := CObject (stripped c1 d2)).
  assert (Hsub14 : h1 ⊆ h4).
  { destruct Hcases2 as [(_ & _ & ->)|(l' & c' & _ & _ & _ & ->)];
      [done|apply alloc_subseteq]. }
  assert (Hout4 : h4 !! out = Some c1) by (by eapply lookup_weaken).
  destruct (stripped_get c1 d2) as (G1' & G2' & _ & _). fold c2 in G1', G2'.
  exists out, h1, out2, (<[out2 := c2]> h4), c1, c2.
  rewrite !safeParse_run, Hrun, Hrun2. cbn [fst snd].
  split_and!.
  - done.
  - done.
  - eapply lookup_weaken; [exact Hout4|apply alloc_subseteq].
  - apply lookup_insert_eq.
  - intros Heq. pose proof (fresh_lookup h4) as Hf. fold out2 in Hf. congruence.
  - etrans; [exact G1'|exact G1].
  - etrans; [exact G2'|exact G2].
  - unfold c2. cbn [all_props]. unfold stripped at 1. rewrite G4.
    unfold c1. cbn [all_props]. unfold stripped.
    by destruct (has_prop c "details").
Qed.

Lemma safeParse_idempotent_witness :
  ∃ out h1 out2 h2,
    safeParse ErrorSchema (VRef 2%positive) store_timeout_details
    = (Ok (SafeParseSuccess (VRef out)), h1)
    ∧ safeParse ErrorSchema (VRef out) h1 = (Ok (SafeParseSuccess (VRef out2)), h2)
    ∧ out ≠ out2.
Proof.
  destruct (safeParse_idempotent store_timeout_details 2%positive
              (CObject [("code", VString "TIMEOUT");
                        ("message", VString "deadline exceeded");
                        ("details", VRef 1%positive)]))
    as (out & h1 & out2 & h2 & c1 & c2 & H1 & H2 & _ & _ & Hne & _).
  - reflexivity.
  - exists 2%positive, (CObject [("code", VString "TIMEOUT");
                                  ("message", VString "deadline exceeded");
                                  ("details", VRef 1%positive)]).
    split_and!; [reflexivity|reflexivity|by intros elems| | |].
    + exists TIMEOUT. reflexivity.
    + exists "deadline exceeded". reflexivity.
    + right. exists 1%positive, (CObject [("retryAfterMs", VNumber (Finite 500))]).
      split_and!; [reflexivity|reflexivity|by intros elems].
  - exists out, h1, out2, h2. split_and!; assumption.
Defined.

Lemma assoc_NoDup (props : list (string * value)) (k : string) (v : value) :
  NoDup props.*1 → (k, v) ∈ props → assoc k props = Some v.
Proof.
  induction props as [|[k' v'] props IH]; intros Hnd Hin; [by apply elem_of_nil in Hin|].
  cbn [fmap list_fmap fst] in Hnd. apply NoDup_cons in Hnd as [Hk' Hnd].
  cbn [assoc]. apply elem_of_cons in Hin as [[= -> ->]|Hin].
  - by rewrite bool_decide_eq_true_2.
  - rewrite bool_decide_eq_false_2; [by apply IH|].
    intros ->. apply Hk'. apply list_elem_of_fmap. by exists (k', v).
Qed.

Lemma set_prop_new (acc : list (string * value)) (k : string) (v : value) :
  k ∉ acc.*1 → set_prop acc k v = acc ++ [(k, v)].
Proof.
  induction acc as [|[k' v'] acc IH]; intros Hk; [done|].
  cbn [fmap list_fmap fst] in Hk. apply not_elem_of_cons in Hk as [Hne Hk].
  cbn [set_prop]. rewrite bool_decide_eq_false_2 by done. by rewrite IH.
Qed.

Lemma merge_pairs_append (kvs acc : list (string * value)) :
  NoDup (acc.*1 ++ kvs.*1) →
  "__proto__" ∉ kvs.*1 →
  merge_pairs acc ((λ kv, mkPair kv.1 (OK kv.2) true) <$> kvs) = Some (acc ++ kvs).
Proof.
  revert acc. induction kvs as [|[k v] kvs IH]; intros acc Hnd Hproto.
  { by rewrite app_nil_r. }
  cbn [fmap list_fmap fst] in *. apply not_elem_of_cons in Hproto as [Hne Hproto].
  cbn [merge_pairs pair_value pair_key alwaysSet fst snd].
  rewrite bool_decide_eq_false_2 by done. rewrite orb_true_r. cbn [negb andb].
  apply NoDup_app in Hnd as (Hacc & Hdisj & Hkvs).
  apply NoDup_cons in Hkvs as [Hk Hkvs].
  rewrite set_prop_new.
  2:{ intros Hin. apply (Hdisj k Hin). by left. }
  rewrite IH; [by rewrite <- app_assoc| |done].
  rewrite fmap_app. cbn [fmap list_fmap fst]. apply NoDup_app. split_and!.
  - apply NoDup_app. split_and!; [done| |apply NoDup_singleton].
    intros x Hx ->%list_elem_of_singleton. apply (Hdisj k Hx). by left.
  - intros x [Hx| ->%list_elem_of_singleton]%elem_of_app Hx'; [|done].
    apply (Hdisj x Hx). by right.
  - done.
Qed.

(** The copy a record parser makes of a plain object with distinct keys,
    none of them [__proto__]: the same properties, in enumeration order. *)
Lemma record_copy_plain (props : list (string * value)) :
  NoDup props.*1 → "__proto__" ∉ props.*1 →
  record_copy (CObject props) = own_props props.
Proof.
  intros Hnd Hproto. unfold record_copy, record_pairs. cbn [enumerable_props].
  assert (Hpairs :
    (λ kv : string * value,
       mkPair kv.1 (OK (get_prop (CObject props) kv.1)) (has_prop (CObject props) kv.1))
      <$> own_props props
    = (λ kv, mkPair kv.1 (OK kv.2) true) <$> own_props props).
  { apply list_fmap_ext. intros i [k v] Hi. cbn [fst snd].
    apply list_elem_of_lookup_2 in Hi. rewrite own_props_perm in Hi.
    unfold get_prop, has_prop. cbn [all_props].
    rewrite (assoc_NoDup props k v Hnd Hi). cbn [default].
    by rewrite bool_decide_eq_true_2. }
  rewrite Hpairs, merge_pairs_append; [done| |].
  - cbn [fmap list_fmap app]. by rewrite own_props_perm.
  - by rewrite own_props_perm.
Qed.

(** X15.  The [details] of a parsed result is a shallow copy: a new object,
    distinct from the [details] of the input, holding the same properties
    with the same values (references included) in enumeration order; the
    input's [details] is unchanged. *)
Theorem parsed_details_is_copy (h : heap) (l l' : loc) (c : cell)
    (props : list (string * value)) :
  h !! l = Some c →
  shape_valid h (VRef l) →
  get_prop c "details" = VRef l' →
  h !! l' = Some (CObject props) →
  NoDup props.*1 →
  "__proto__" ∉ props.*1 →
  ∃ out copy h' c1,
    safeParse ErrorSchema (VRef l) h = (Ok (SafeParseSuccess (VRef out)), h')
    ∧ h' !! out = Some c1
    ∧ get_prop c1 "details" = VRef copy
    ∧ copy ≠ l' ∧ h !! copy = None
    ∧ h' !! copy = Some (CObject (own_props props))
    ∧ h' !! l' = Some (CObject props).
Proof.
  intros Hl (l0 & c0 & [= <-] & Hl0 & Hc & Hcode & Hmsg & Hdet) Hd Hl' Hnd Hproto.
  assert (c0 = c) as -> by congruence.
  destruct (ErrorSchema_accepts h l c Hl Hc Hcode Hmsg Hdet)
    as (d & h3 & Hrun & [(Hd' & _)|(l'' & c' & Hd' & Hl'' & -> & ->)]);
    [congruence|].
  assert (l'' = l') as -> by congruence. assert (c' = CObject props) as -> by congruence.
  set (copy := fresh (dom h)) in *.
  set (h3 := <[copy := CObject (record_copy (CObject props))]> h) in *.
  exists (fresh (dom h3)), copy,
    (<[fresh (dom h3) := CObject (stripped c (VRef copy))]> h3),
    (CObject (stripped c (VRef copy))).
  rewrite safeParse_run, Hrun. cbn [fst snd].
  assert (Hf : h !! copy = None) by apply fresh_lookup.
  split_and!.
  - done.
  - apply lookup_insert_eq.
  - destruct (stripped_get c (VRef copy)) as (_ & _ & -> & _).
    by rewrite (has_prop_get c "details") by (by rewrite Hd).
  - intros Heq. congruence.
  - done.
  - eapply lookup_weaken; [|apply alloc_subseteq].
    unfold h3. rewrite lookup_insert_eq. by rewrite record_copy_plain.
  - eapply lookup_weaken; [|apply alloc_subseteq].
    eapply lookup_weaken; [exact Hl'|apply alloc_subseteq].
Qed.

Lemma parsed_details_is_copy_witness :
  ∃ out copy h',
    safeParse ErrorSchema (VRef 2%positive) store_timeout_details
    = (Ok (SafeParseSuccess (VRef out)), h')
    ∧ copy ≠ 1%positive
    ∧ h' !! copy = Some (CObject [("retryAfterMs", VNumber (Finite 500))]).
Proof.
  destruct (parsed_details_is_copy store_timeout_details 2%positive 1%positive
              (CObject [("code", VString "TIMEOUT");
                        ("message", VString "deadline exceeded");
                        ("details", VRef 1%positive)])
              [("retryAfterMs", VNumber (Finite 500))])
    as (out & copy & h' & c1 & Hrun & _ & _ & Hne & _ & Hcopy & _).
  - reflexivity.
  - exists 2%positive, (CObject [("code", VString "TIMEOUT");
                                  ("message", VString "deadline exceeded");
                                  ("details", VRef 1%positive)]).
    split_and!; [reflexivity|reflexivity|by intros elems| | |].
    + exists TIMEOUT. reflexivity.
    + exists "deadline exceeded". reflexivity.
    + right. exists 1%positive, (CObject [("retryAfterMs", VNumber (Finite 500))]).
      split_and!; [reflexivity|reflexivity|by intros elems].
  - reflexivity.
  - reflexivity.
  - apply (bool_decide_unpack _). by vm_compute.
  - apply (bool_decide_unpack _). by vm_compute.
  - exists out, copy, h'. split_and!; assumption.
Defined.

(** X16.  Constructing an error and validating the instance gives back its
    fields: the parsed result is a new object with exactly the keys [code],
    [message] and [details], holding the string of the code, the message,
    and undefined or a copy of the [details] object. *)
Theorem construct_then_validate (h : heap) (c : BaseErrorCode) (msg : string)
    (d : value) :
  details_typed h d →
  ∃ inst h1 out d' h2,
    new_McpError c msg d h = (Ok inst, h1)
    ∧ safeParse ErrorSchema (VRef inst) h1 = (Ok (SafeParseSuccess (VRef out)), h2)
    ∧ h2 !! out = Some (CObject [("code", VString (code_value c));
                                 ("message", VString msg);
                                 ("details", d')])
    ∧ (d = VUndefined → d' = VUndefined)
    ∧ (∀ l, d = VRef l → ∃ copy, d' = VRef copy ∧ copy ≠ l ∧ h1 !! copy = None).
Proof.
  intros Htyped. rewrite new_McpError_run.
  set (inst := fresh (dom h)). set (e := mkMcpError c msg d "McpError").
  set (h1 := <[inst := CError e]> h).
  assert (Hinst : h1 !! inst = Some (CError e)) by apply lookup_insert_eq.
  assert (Hsub : h ⊆ h1) by apply alloc_subseteq.
  destruct (ErrorSchema_accepts h1 inst (CError e) Hinst) as (d' & h3 & Hrun & Hcases).
  - by intros elems.
  - by exists c.
  - by exists msg.
  - change (get_prop (CError e) "details") with d.
    destruct Htyped as [->|(l & props & -> & Hl)]; [by left|right].
    exists l, (CObject props). split_and!; [done| |by intros elems].
    by eapply lookup_weaken.
  - exists inst, h1, (fresh (dom h3)), d',
      (<[fresh (dom h3) := CObject (stripped (CError e) d')]> h3).
    rewrite safeParse_run, Hrun. cbn [fst snd].
    change (get_prop (CError e) "details") with d in Hcases.
    split_and!; [done|done|apply lookup_insert_eq| |].
    + intros ->. by destruct Hcases as [(_ & -> & _)|(l' & c' & Hd & _)].
    + intros l ->. destruct Hcases as [(Hd & _)|(l' & c' & [= <-] & Hl' & -> & _)];
        [done|].
      exists (fresh (dom h1)). split_and!; [done| |apply fresh_lookup].
      intros Heq. pose proof (fresh_lookup h1) as Hf. congruence.
Qed.

Lemma construct_then_validate_witness :
  ∃ inst h1 out d' h2,
    new_McpError VALIDATION_ERROR "bad field" (VRef 1%positive) store_field
    = (Ok inst, h1)
    ∧ safeParse ErrorSchema (VRef inst) h1 = (Ok (SafeParseSuccess (VRef out)), h2)
    ∧ h2 !! out = Some (CObject [("code", VString "VALIDATION_ERROR");
                                 ("message", VString "bad field");
                                 ("details", d')]).
Proof.
  destruct (construct_then_validate store_field VALIDATION_ERROR "bad field"
              (VRef 1%positive))
    as (inst & h1 & out & d' & h2 & Hnew & Hrun & Hout & _).
  - right. exists 1%positive, [("field", VString "name")]. split; reflexivity.
  - exists inst, h1, out, d', h2. split_and!; assumption.
Defined.

(** X17.  The kind of issue reported for a [code] that is not in the
    registry depends on the kind of value: a string or a number gives
    [invalid_enum_value], any other value (a missing [code] included) gives
    [invalid_type]; it is the first issue of the rejection. *)
Theorem code_issue_kind (h : heap) (l : loc) (c : cell) :
  closed h →
  h !! l = Some c →
  is_mapping c →
  code_ok c = false →
  ∃ t rest h',
    getParsedType h (get_prop c "code") = Ok t
    ∧ safeParse ErrorSchema (VRef l) h
      = (Ok (SafeParseError
               ((if bool_decide (t = zpt_string ∨ t = zpt_number)
                 then invalid_enum_value ["code"] (get_prop c "code") nativeEnumValues
                 else invalid_type ["code"] (joinValues nativeEnumValues) t)
                :: rest)), h').
Proof.
  intros Hclosed Hl Hc Hcode. unfold code_ok in Hcode.
  destruct (getParsedType_allocated h (get_prop c "code")) as [t1 H1];
    [by eapply get_prop_allocated|].
  destruct (getParsedType_allocated h (get_prop c "message")) as [t2 H2];
    [by eapply get_prop_allocated|].
  destruct (getParsedType_allocated h (get_prop c "details")) as [t3 H3];
    [by eapply get_prop_allocated|].
  destruct (details_run_spec h c t3 H3) as (r3 & h3 & Hrun3 & _).
  exists t1. rewrite safeParse_run, (ErrorSchema_run h l c Hl Hc), H1, H2, Hrun3.
  cbv zeta. rewrite (enum_verdict_spec h _ _ _ H1), Hcode.
  cbn [fst snd merge_pairs pair_value app].
  eexists _, _. split; [done|]. do 3 f_equal.
  destruct (decide (t1 = zpt_string)) as [->|Hs]; [done|].
  destruct (decide (t1 = zpt_number)) as [->|Hn]; [done|].
  rewrite !bool_decide_eq_true_2 by done.
  rewrite bool_decide_eq_false_2 by tauto. done.
Qed.

Lemma code_issue_kind_witness :
  (∃ rest h',
     safeParse ErrorSchema (VRef 1%positive) store_three_failures
     = (Ok (SafeParseError
              (invalid_enum_value ["code"] (VNumber (Finite 3)) nativeEnumValues
               :: rest)), h')).
Proof.
  destruct (code_issue_kind store_three_failures 1%positive
              (CObject [("code", VNumber (Finite 3)); ("details", VNull)]))
    as (t & rest & h' & Ht & Hrun).
  - intros l c Hl. unfold store_three_failures in Hl.
    apply lookup_singleton_Some in Hl as [_ <-]. by repeat constructor.
  - reflexivity.
  - by intros elems.
  - reflexivity.
  - vm_compute in Ht. injection Ht as <-. exists rest, h'. exact Hrun.
Defined.
